(** * Tourist system: the request pipeline of [backend/app.py]

    A shallow embedding of [TourismAgent.handle_request],
    [TourismAgent._extract_place], [PlacesAgent.get_places],
    [WeatherAgent.get_weather], [GeocodingAgent.geocode] and [api_query].

    A Python [str] is a list of Unicode code points.  [str.isspace] is the
    set of 29 whitespace code points, which is also what [strip] and
    [split] remove.  [str.lower] follows the lower-case mapping of the
    Unicode character database (version 14): every code point has one
    lower-case code point, except U+0130, which becomes the two code points
    U+0069 U+0307, so that the lowered text can be longer than the text. *)

From Stdlib Require Import Ascii String List Bool Arith NArith ZArith Lia.
From Stdlib Require Import Numbers.DecimalString.
Import ListNotations.

Set Implicit Arguments.

(** ** Strings *)

Module Str.

(** A Unicode code point. *)
Definition char := N.

Definition str := list char.

(** The code point of an ASCII character. *)
Definition ch (a : ascii) : char := N_of_ascii a.

(** A literal of the source; the literals of this program are ASCII. *)
Definition lit (s : string) : str := map ch (list_ascii_of_string s).

(** The code points for which [str.isspace] holds. *)
Definition whitespace : list char :=
  [9; 10; 11; 12; 13; 28; 29; 30; 31; 32; 133; 160;
   5760; 8192; 8193; 8194; 8195; 8196; 8197; 8198; 8199; 8200; 8201; 8202;
   8232; 8233; 8239; 8287; 12288]%N.

(** [str.isspace] on one character. *)
Definition isspace (c : char) : bool := existsb (N.eqb c) whitespace.

(** The one-to-one part of the lower-case mapping, as arithmetic
    progressions [(first, last, step, image of first)]: a code point
    [first + k * step <= last] maps to [image + k * step]. *)
Definition lower_ranges : list (N * N * N * N) :=
  [
    (65, 90, 1, 97); (192, 214, 1, 224); (216, 222, 1, 248);
    (256, 302, 2, 257); (306, 310, 2, 307); (313, 327, 2, 314);
    (330, 374, 2, 331); (376, 376, 1, 255); (377, 381, 2, 378);
    (385, 385, 1, 595); (386, 388, 2, 387); (390, 390, 1, 596);
    (391, 391, 1, 392); (393, 394, 1, 598); (395, 395, 1, 396);
    (398, 398, 1, 477); (399, 399, 1, 601); (400, 400, 1, 603);
    (401, 401, 1, 402); (403, 403, 1, 608); (404, 404, 1, 611);
    (406, 406, 1, 617); (407, 407, 1, 616); (408, 408, 1, 409);
    (412, 412, 1, 623); (413, 413, 1, 626); (415, 415, 1, 629);
    (416, 420, 2, 417); (422, 422, 1, 640); (423, 423, 1, 424);
    (425, 425, 1, 643); (428, 428, 1, 429); (430, 430, 1, 648);
    (431, 431, 1, 432); (433, 434, 1, 650); (435, 437, 2, 436);
    (439, 439, 1, 658); (440, 440, 1, 441); (444, 444, 1, 445);
    (452, 452, 1, 454); (453, 453, 1, 454); (455, 455, 1, 457);
    (456, 456, 1, 457); (458, 458, 1, 460); (459, 475, 2, 460);
    (478, 494, 2, 479); (497, 497, 1, 499); (498, 500, 2, 499);
    (502, 502, 1, 405); (503, 503, 1, 447); (504, 542, 2, 505);
    (544, 544, 1, 414); (546, 562, 2, 547); (570, 570, 1, 11365);
    (571, 571, 1, 572); (573, 573, 1, 410); (574, 574, 1, 11366);
    (577, 577, 1, 578); (579, 579, 1, 384); (580, 580, 1, 649);
    (581, 581, 1, 652); (582, 590, 2, 583); (880, 882, 2, 881);
    (886, 886, 1, 887); (895, 895, 1, 1011); (902, 902, 1, 940);
    (904, 906, 1, 941); (908, 908, 1, 972); (910, 911, 1, 973);
    (913, 929, 1, 945); (931, 939, 1, 963); (975, 975, 1, 983);
    (984, 1006, 2, 985); (1012, 1012, 1, 952); (1015, 1015, 1, 1016);
    (1017, 1017, 1, 1010); (1018, 1018, 1, 1019); (1021, 1023, 1, 891);
    (1024, 1039, 1, 1104); (1040, 1071, 1, 1072); (1120, 1152, 2, 1121);
    (1162, 1214, 2, 1163); (1216, 1216, 1, 1231); (1217, 1229, 2, 1218);
    (1232, 1326, 2, 1233); (1329, 1366, 1, 1377); (4256, 4293, 1, 11520);
    (4295, 4295, 1, 11559); (4301, 4301, 1, 11565); (5024, 5103, 1, 43888);
    (5104, 5109, 1, 5112); (7312, 7354, 1, 4304); (7357, 7359, 1, 4349);
    (7680, 7828, 2, 7681); (7838, 7838, 1, 223); (7840, 7934, 2, 7841);
    (7944, 7951, 1, 7936); (7960, 7965, 1, 7952); (7976, 7983, 1, 7968);
    (7992, 7999, 1, 7984); (8008, 8013, 1, 8000); (8025, 8031, 2, 8017);
    (8040, 8047, 1, 8032); (8072, 8079, 1, 8064); (8088, 8095, 1, 8080);
    (8104, 8111, 1, 8096); (8120, 8121, 1, 8112); (8122, 8123, 1, 8048);
    (8124, 8124, 1, 8115); (8136, 8139, 1, 8050); (8140, 8140, 1, 8131);
    (8152, 8153, 1, 8144); (8154, 8155, 1, 8054); (8168, 8169, 1, 8160);
    (8170, 8171, 1, 8058); (8172, 8172, 1, 8165); (8184, 8185, 1, 8056);
    (8186, 8187, 1, 8060); (8188, 8188, 1, 8179); (8486, 8486, 1, 969);
    (8490, 8490, 1, 107); (8491, 8491, 1, 229); (8498, 8498, 1, 8526);
    (8544, 8559, 1, 8560); (8579, 8579, 1, 8580); (9398, 9423, 1, 9424);
    (11264, 11311, 1, 11312); (11360, 11360, 1, 11361);
    (11362, 11362, 1, 619); (11363, 11363, 1, 7549); (11364, 11364, 1, 637);
    (11367, 11371, 2, 11368); (11373, 11373, 1, 593); (11374, 11374, 1, 625);
    (11375, 11375, 1, 592); (11376, 11376, 1, 594); (11378, 11378, 1, 11379);
    (11381, 11381, 1, 11382); (11390, 11391, 1, 575);
    (11392, 11490, 2, 11393); (11499, 11501, 2, 11500);
    (11506, 11506, 1, 11507); (42560, 42604, 2, 42561);
    (42624, 42650, 2, 42625); (42786, 42798, 2, 42787);
    (42802, 42862, 2, 42803); (42873, 42875, 2, 42874);
    (42877, 42877, 1, 7545); (42878, 42886, 2, 42879);
    (42891, 42891, 1, 42892); (42893, 42893, 1, 613);
    (42896, 42898, 2, 42897); (42902, 42920, 2, 42903);
    (42922, 42922, 1, 614); (42923, 42923, 1, 604); (42924, 42924, 1, 609);
    (42925, 42925, 1, 620); (42926, 42926, 1, 618); (42928, 42928, 1, 670);
    (42929, 42929, 1, 647); (42930, 42930, 1, 669); (42931, 42931, 1, 43859);
    (42932, 42946, 2, 42933); (42948, 42948, 1, 42900);
    (42949, 42949, 1, 642); (42950, 42950, 1, 7566); (42951, 42953, 2, 42952);
    (42960, 42960, 1, 42961); (42966, 42968, 2, 42967);
    (42997, 42997, 1, 42998); (65313, 65338, 1, 65345);
    (66560, 66599, 1, 66600); (66736, 66771, 1, 66776);
    (66928, 66938, 1, 66967); (66940, 66954, 1, 66979);
    (66956, 66962, 1, 66995); (66964, 66965, 1, 67003);
    (68736, 68786, 1, 68800); (71840, 71871, 1, 71872);
    (93760, 93791, 1, 93792); (125184, 125217, 1, 125218)
  ]%N.

Fixpoint lower_in (ranges : list (N * N * N * N)) (c : char) : char :=
  match ranges with
  | [] => c
  | (first, last, step, image) :: rest =>
      if (first <=? c)%N && (c <=? last)%N && ((c - first) mod step =? 0)%N
      then (image + (c - first))%N
      else lower_in rest c
  end.

(** The lower-case code point of a code point other than U+0130.  U+03A3
    maps to U+03C3 here; Python gives U+03C2 at the end of a word, which is
    also one code point outside ASCII, and the program looks for ASCII
    text only. *)
Definition simple_lower (c : char) : char := lower_in lower_ranges c.

(** LATIN CAPITAL LETTER I WITH DOT ABOVE *)
Definition dotted_I : char := 304%N.

(** [str.lower] on one character. *)
Definition lower_char (c : char) : str :=
  if (c =? dotted_I)%N then [105; 775]%N else [simple_lower c].

(** [s.lower()] *)
Definition lower (s : str) : str := flat_map lower_char s.

Fixpoint eqb (a b : str) : bool :=
  match a, b with
  | [], [] => true
  | x :: a', y :: b' => N.eqb x y && eqb a' b'
  | _, _ => false
  end.

(** [s.startswith(prefix)] *)
Fixpoint startswith (s prefix : str) {struct prefix} : bool :=
  match prefix, s with
  | [], _ => true
  | p :: ps, c :: cs => N.eqb p c && startswith cs ps
  | _ :: _, [] => false
  end.

(** [s.find(sub)]: the lowest index where [sub] occurs, [None] for -1.
    [s.index(sub)] is the same search and raises where [find] gives -1;
    [sub in s] holds exactly when the search succeeds. *)
Fixpoint find (sub s : str) : option nat :=
  if startswith s sub then Some 0
  else match s with
       | [] => None
       | _ :: cs => option_map S (find sub cs)
       end.

(** [s.rfind(sub)]: the highest index where [sub] occurs. *)
Fixpoint rfind (sub s : str) : option nat :=
  match s with
  | [] => if startswith s sub then Some 0 else None
  | _ :: cs =>
      match rfind sub cs with
      | Some i => Some (S i)
      | None => if startswith s sub then Some 0 else None
      end
  end.

(** [sub in s] *)
Definition contains (sub s : str) : bool :=
  match find sub s with Some _ => true | None => false end.

Fixpoint lstrip (s : str) : str :=
  match s with
  | [] => []
  | c :: cs => if isspace c then lstrip cs else s
  end.

Definition rstrip (s : str) : str := rev (lstrip (rev s)).

(** [s.strip()] *)
Definition strip (s : str) : str := rstrip (lstrip s).

(** [s.split()]: maximal runs of non-whitespace characters. *)
Fixpoint split (s : str) : list str :=
  match s with
  | [] => []
  | c :: cs =>
      if isspace c then split cs
      else match cs with
           | [] => [[c]]
           | d :: _ =>
               if isspace d then [c] :: split cs
               else match split cs with
                    | w :: ws => (c :: w) :: ws
                    | [] => [[c]]
                    end
           end
  end.

(** [sep.join(ws)] *)
Fixpoint join (sep : str) (ws : list str) : str :=
  match ws with
  | [] => []
  | [w] => w
  | w :: rest => w ++ sep ++ join sep rest
  end.

(** [xs[-n:]] for a positive [n]. *)
Definition lastn {A} (n : nat) (xs : list A) : list A :=
  skipn (length xs - n) xs.

(** [s.split(",")[0]] *)
Fixpoint before_comma (s : str) : str :=
  match s with
  | [] => []
  | c :: cs => if N.eqb c (ch ",") then [] else c :: before_comma cs
  end.

End Str.

Import Str.

(** ** The place extractor: [TourismAgent._extract_place] *)

Definition stop_words : list str :=
  map lit
    ["i"; "im"; "i'm"; "going"; "go"; "to"; "what"; "is"; "the";
     "there"; "and"; "visit"; "places"; "place"; "temperature";
     "weather"; "trip"; "in"; "city"; "are"; "can"; "you";
     "my"; "let's"; "lets"]%string.

Definition is_stop_word (w : str) : bool :=
  existsb (Str.eqb (lower w)) stop_words.

Definition separators : list str :=
  map lit [","; "?"; "."; " and "; " what "]%string.

(** Lines 161-165: the candidate after the last [" to "] of the trimmed
    text, or the trimmed text itself. *)
Definition anchor (text : str) : str :=
  match rfind (lit " to ") (lower text) with
  | Some idx => strip (skipn (idx + 4) text)
  | None => text
  end.

(** Lines 167-171: the [for sep in ...] loop with its [break]. *)
Fixpoint truncate (seps : list str) (candidate : str) : str :=
  match seps with
  | [] => candidate
  | sep :: rest =>
      match find sep (lower candidate) with
      | Some i => strip (firstn i candidate)
      | None => truncate rest candidate
      end
  end.

(** Lines 179-185: stop-word filter and its fallback. *)
Definition strip_stop_words (candidate : str) : str :=
  let words := split candidate in
  let filtered := filter (fun w => negb (is_stop_word w)) words in
  match filtered with
  | _ :: _ => join (lit " ") filtered
  | [] => join (lit " ") (lastn 2 words)
  end.

(** Lines 187-188. *)
Definition cap (candidate : str) : str :=
  if 3 <? length (split candidate)
  then join (lit " ") (lastn 2 (split candidate))
  else candidate.

Definition extract_place (user_input : str) : str :=
  let text := strip user_input in
  let candidate := anchor text in
  let candidate := truncate separators candidate in
  let candidate := strip_stop_words candidate in
  cap candidate.

(** ** Intent detection: lines 99-107 of [handle_request] *)

Record intent := { wants_weather : bool; wants_places : bool }.

Definition weather_keywords : list str :=
  map lit ["temperature"; "weather"]%string.

Definition places_keywords : list str :=
  map lit ["place"; "places"; "visit"; "attraction"; "sightseeing"]%string.

Definition classify (user_input : str) : intent :=
  let text := lower user_input in
  let wants_weather :=
    contains (lit "temperature") text || contains (lit "weather") text in
  let wants_places := existsb (fun w => contains w text) places_keywords in
  if negb wants_weather && negb wants_places
  then {| wants_weather := wants_weather; wants_places := true |}
  else {| wants_weather := wants_weather; wants_places := wants_places |}.

(** ** Upstream services and the effects of a request *)

(** An outgoing HTTP request. *)
Inductive call (float : Type) :=
| Nominatim (q : str)
| OpenMeteo (lat lon : float)
| Overpass (lat lon : float).

Inductive exn := GeocodingError | RequestException.

Inductive result (A : Type) :=
| Return (a : A)
| Raise (e : exn).

Arguments Raise {A} e.

Definition exn_eqb (a b : exn) : bool :=
  match a, b with
  | GeocodingError, GeocodingError | RequestException, RequestException => true
  | _, _ => false
  end.

Section Agents.

(** Python floats (coordinates, temperatures) and their rendering in an
    f-string are left abstract. *)
Variable float : Type.
Variable fmt_float : float -> str.

(** One entry of Nominatim's result list, [lat] and [lon] already through
    [float(...)]. *)
Record geo_hit := {
  hit_lat : float;
  hit_lon : float;
  hit_display_name : option str }.

(** The part of Open-Meteo's answer that [get_weather] reads; the hourly
    values are taken to be numbers (a [null] among them is not modelled). *)
Record forecast := {
  current_temperature : option float;
  precipitation_probability : list Z }.

(** One entry of Overpass's ["elements"], reduced to [tags.name]. *)
Record element := { tag_name : option str }.

(** What the three providers answer; [None] is a request that raises
    (timeout, transport error, [raise_for_status]). *)
Record upstream := {
  nominatim : str -> option (list geo_hit);
  open_meteo : float -> float -> option forecast;
  overpass : float -> float -> option (list element) }.

(** A computation that logs its outgoing requests and may raise. *)
Definition io (A : Type) : Type :=
  list (call float) -> result A * list (call float).

Definition ret {A} (a : A) : io A := fun log => (Return a, log).

Definition raise {A} (e : exn) : io A := fun log => (Raise e, log).

Definition bind {A B} (m : io A) (k : A -> io B) : io B :=
  fun log =>
    match m log with
    | (Return a, log') => k a log'
    | (Raise e, log') => (Raise e, log')
    end.

(** [try: m  except e: handler] *)
Definition try_except {A} (m : io A) (e : exn) (handler : io A) : io A :=
  fun log =>
    match m log with
    | (Raise e', log') =>
        if exn_eqb e e' then handler log' else (Raise e', log')
    | r => r
    end.

(** Send request [c]; [None] raises. *)
Definition request {A} (c : call float) (response : option A) : io A :=
  fun log =>
    match response with
    | Some a => (Return a, log ++ [c])
    | None => (Raise RequestException, log ++ [c])
    end.

Notation "x <- m ;; k" := (bind m (fun x => k))
  (at level 61, m at next level, right associativity).
Notation "' p <- m ;; k" := (bind m (fun x => let 'p := x in k))
  (at level 61, p pattern, m at next level, right associativity).

Variable net : upstream.

(** [max(precip_list) if precip_list else None] *)
Definition max_or_none (l : list Z) : option Z :=
  match l with
  | [] => None
  | x :: rest => Some (fold_left Z.max rest x)
  end.

(** [WeatherAgent.get_weather] *)
Definition get_weather (lat lon : float) : io (option float * option Z) :=
  data <- request (OpenMeteo lat lon) (open_meteo net lat lon) ;;
  let current_temp := current_temperature data in
  let rain_chance := max_or_none (precipitation_probability data) in
  ret (current_temp, rain_chance).

Definition in_names (name : str) (names : list str) : bool :=
  existsb (Str.eqb name) names.

(** The loop of [get_places], lines 56-61: [names] is the list built so
    far. *)
Fixpoint collect_names (limit : Z) (names : list str) (elements : list element)
  : list str :=
  match elements with
  | [] => names
  | el :: rest =>
      let names :=
        match tag_name el with
        | Some ((_ :: _) as name) =>
            if negb (in_names name names) then names ++ [name] else names
        | _ => names
        end in
      if (limit <=? Z.of_nat (length names))%Z then names
      else collect_names limit names rest
  end.

(** [PlacesAgent.get_places] *)
Definition get_places (lat lon : float) (limit : Z) : io (list str) :=
  data <- request (Overpass lat lon) (overpass net lat lon) ;;
  ret (collect_names limit [] data).

(** [GeocodingAgent.geocode] *)
Definition geocode (place : str) : io (float * float * str) :=
  results <- request (Nominatim float place) (nominatim net place) ;;
  match results with
  | [] => raise GeocodingError
  | first :: _ =>
      let display_name :=
        match hit_display_name first with
        | Some d => d
        | None => place
        end in
      ret (hit_lat first, hit_lon first, before_comma display_name)
  end.

(** *** Reply sentences *)

Definition fmt_int (z : Z) : str := lit (NilZero.string_of_int (Z.to_int z)).

(** An f-string field holding an optional value: [None] prints as
    ["None"]. *)
Definition fmt_opt {A} (f : A -> str) (o : option A) : str :=
  match o with
  | Some a => f a
  | None => lit "None"
  end.

(** ["°C"]: the degree sign is U+00B0. *)
Definition degrees_c : str := [176%N; ch "C"].

Definition prompt_reply : str :=
  lit "Please tell me which place you want to go.".

Definition unknown_place_reply : str := lit "I don't know this place exist.".

Definition weather_sentence (display_name temp rain_chance : str) : str :=
  lit "In " ++ display_name ++ lit " it's currently " ++ temp ++ degrees_c
  ++ lit " with a chance of " ++ rain_chance ++ lit "% to rain.".

Definition temperature_sentence (display_name temp : str) : str :=
  lit "In " ++ display_name ++ lit " it's currently " ++ temp ++ degrees_c
  ++ lit ".".

Definition weather_apology (display_name : str) : str :=
  lit "Sorry, I couldn't get the weather for " ++ display_name ++ lit ".".

Definition places_apology (display_name : str) : str :=
  lit "Sorry, I couldn't find tourist places near " ++ display_name ++ lit ".".

Definition newline : str := [10%N].

Definition places_prefix (with_weather : bool) (display_name : str) : str :=
  if with_weather then lit "And these are the places you can go:"
  else lit "In " ++ display_name ++ lit " these are the places you can go,".

(** Lines 125-130. *)
Definition weather_only_reply (display_name : str) (temp : option float)
  (rain_chance : option Z) : str :=
  match temp, rain_chance with
  | Some t, Some r => weather_sentence display_name (fmt_float t) (fmt_int r)
  | Some t, None => temperature_sentence display_name (fmt_float t)
  | None, _ => weather_apology display_name
  end.

(** Lines 145-153. *)
Definition places_fragment (with_weather : bool) (display_name : str)
  (places : list str) : str :=
  match places with
  | _ :: _ =>
      places_prefix with_weather display_name ++ newline ++ join newline places
  | [] => places_apology display_name
  end.

(** [TourismAgent.handle_request].  The [try] holds the geocoding call
    alone; its [except GeocodingError] branch returns the fixed reply, which
    is the [None] below. *)
Definition handle_request (user_input : str) : io str :=
  let i := classify user_input in
  let place := extract_place user_input in
  match place with
  | [] => ret prompt_reply
  | _ :: _ =>
      located <- try_except (loc <- geocode place ;; ret (Some loc))
                   GeocodingError (ret None) ;;
      match located with
      | None => ret unknown_place_reply
      | Some (lat, lon, display_name) =>
          if wants_weather i && negb (wants_places i) then
            '(temp, rain_chance) <- get_weather lat lon ;;
            ret (weather_only_reply display_name temp rain_chance)
          else
            parts <-
              (if wants_weather i then
                 '(temp, rain_chance) <- get_weather lat lon ;;
                 ret [weather_sentence display_name (fmt_opt fmt_float temp)
                        (fmt_opt fmt_int rain_chance)]
               else ret []) ;;
            parts <-
              (if wants_places i then
                 places <- get_places lat lon 5 ;;
                 ret (parts ++ [places_fragment (wants_weather i) display_name
                                  places])
               else ret parts) ;;
            ret (join (lit " ") parts)
      end
  end.

(** Run a request from an empty log. *)
Definition run {A} (m : io A) : result A * list (call float) := m [].

End Agents.

(** ** The HTTP handler: [api_query] *)

Section Shell.

Variable float : Type.
Variable fmt_float : float -> str.
Variable net : upstream float.

Definition empty_message_reply : str :=
  lit "Please enter your question or trip plan.".

(** [api_query], lines 204-211.  [message_field] is the ["message"] entry of
    the JSON body, [None] when the body or the entry is missing; the result
    is the ["reply"] text and the HTTP status. *)
Definition api_query (message_field : option str) : io float (str * Z) :=
  let message :=
    strip match message_field with
          | Some m => m
          | None => []
          end in
  match message with
  | [] => ret (empty_message_reply, 400%Z)
  | _ :: _ =>
      bind (handle_request fmt_float net message)
        (fun reply => ret (reply, 200%Z))
  end.

End Shell.

Unset Implicit Arguments.

(** ** Vocabulary of the statements *)

Module Spec.

(** [sub] occurs in [s] at index [i]. *)
Definition occurs_at (sub s : str) (i : nat) : Prop :=
  exists pre post, s = pre ++ sub ++ post /\ length pre = i.

(** [text] has [sub] as a substring. *)
Definition substring (sub text : str) : Prop :=
  exists pre post, text = pre ++ sub ++ post.

(** [i] is the last index at which [sub] occurs in [s]. *)
Definition rightmost (sub s : str) (i : nat) : Prop :=
  occurs_at sub s i /\ forall j, i < j -> ~ occurs_at sub s j.

(** [i] is the first index at which [sub] occurs in [s]. *)
Definition leftmost (sub s : str) (i : nat) : Prop :=
  occurs_at sub s i /\ forall j, j < i -> ~ occurs_at sub s j.

(** A piece of [text] that starts at index [i] lower-cases to [sub]. *)
Definition folded_at (sub text : str) (i : nat) : Prop :=
  exists pre mid post,
    text = pre ++ mid ++ post /\ length pre = i /\ lower mid = sub.

(** A token: non-empty and free of whitespace. *)
Definition token (w : str) : Prop :=
  w <> [] /\ Forall (fun c => isspace c = false) w.

(** The words kept by the stop-word stage: the survivors, or the last two
    words when none survives. *)
Definition kept_words (candidate : str) : list str :=
  match filter (fun w => negb (is_stop_word w)) (split candidate) with
  | (_ :: _) as filtered => filtered
  | [] => lastn 2 (split candidate)
  end.

(** The short name [geocode] returns for a hit. *)
Definition short_name {float} (place : str) (first : geo_hit float) : str :=
  before_comma match hit_display_name first with
               | Some d => d
               | None => place
               end.

(** The truthy names of the response, in order. *)
Fixpoint named (elements : list element) : list str :=
  match elements with
  | [] => []
  | el :: rest =>
      match tag_name el with
      | Some ((_ :: _) as name) => name :: named rest
      | _ => named rest
      end
  end.

(** First occurrences of [l] that are not in [seen]. *)
Fixpoint fresh (seen l : list str) : list str :=
  match l with
  | [] => []
  | x :: rest =>
      if in_names x seen then fresh seen rest
      else x :: fresh (seen ++ [x]) rest
  end.

End Spec.

Import Spec.

(** ** Sample provider answers *)

Module Demo.

Definition paris : geo_hit Z :=
  {| hit_lat := 48%Z; hit_lon := 2%Z;
     hit_display_name := Some (lit "Paris, Ile-de-France, France") |}.

Definition mild : forecast Z :=
  {| current_temperature := Some 21%Z;
     precipitation_probability := [0; 35; 10]%Z |}.

Definition no_rain_data : forecast Z :=
  {| current_temperature := Some 21%Z; precipitation_probability := [] |}.

Definition sights : list element :=
  [ {| tag_name := Some (lit "Louvre") |};
    {| tag_name := None |};
    {| tag_name := Some (lit "Louvre") |};
    {| tag_name := Some (lit "") |};
    {| tag_name := Some (lit "Tuileries") |} ].

(** A geocoder that knows every place but Atlantis. *)
Definition net : upstream Z :=
  {| nominatim := fun q =>
       if Str.eqb q (lit "Atlantis") then Some [] else Some [paris];
     open_meteo := fun _ _ => Some mild;
     overpass := fun _ _ => Some sights |}.

(** The same, with a forecast that has no precipitation list. *)
Definition dry_net : upstream Z :=
  {| nominatim := nominatim net;
     open_meteo := fun _ _ => Some no_rain_data;
     overpass := overpass net |}.

Definition one_park : list element := [ {| tag_name := Some (lit "Park") |} ].

Definition park_net : upstream Z :=
  {| nominatim := nominatim net;
     open_meteo := open_meteo net;
     overpass := fun _ _ => Some one_park |}.

End Demo.

(** Providers that fail. *)
Module Outage.

Definition geocoder_down : upstream Z :=
  {| nominatim := fun _ => None;
     open_meteo := open_meteo Demo.net;
     overpass := overpass Demo.net |}.

Definition weather_down : upstream Z :=
  {| nominatim := nominatim Demo.net;
     open_meteo := fun _ _ => None;
     overpass := overpass Demo.net |}.

Definition places_down : upstream Z :=
  {| nominatim := nominatim Demo.net;
     open_meteo := open_meteo Demo.net;
     overpass := fun _ _ => None |}.

End Outage.

(** [s] is empty or begins with a non-whitespace character. *)
Definition solid_head (s : str) : Prop :=
  match s with
  | [] => True
  | c :: _ => isspace c = false
  end.

(** * Properties *)

(** ** Substring search *)

Module StrFacts.

Lemma eqb_eq (a b : str) : Str.eqb a b = true <-> a = b.
Proof.
  revert b; induction a as [|x a IH]; intros [|y b]; simpl;
    try (split; [discriminate | congruence]); try tauto.
  rewrite andb_true_iff, N.eqb_eq, IH.
  split; [intros [-> ->]; reflexivity | intros H; inversion H; auto].
Qed.

Lemma eqb_refl (a : str) : Str.eqb a a = true.
Proof. apply eqb_eq; reflexivity. Qed.

Lemma startswith_iff (s p : str) :
  startswith s p = true <-> exists post, s = p ++ post.
Proof.
  revert s; induction p as [|x p IH]; intros s; simpl.
  - split; [intros _; exists s; reflexivity | reflexivity].
  - destruct s as [|c s].
    + split; [discriminate | intros [post H]; discriminate].
    + rewrite andb_true_iff, N.eqb_eq, IH.
      split.
      * intros [-> [post ->]]; exists post; reflexivity.
      * intros [post H]; inversion H; subst; eauto.
Qed.

Lemma occurs_at_iff (sub s : str) (i : nat) :
  occurs_at sub s i <-> i <= length s /\ startswith (skipn i s) sub = true.
Proof.
  split.
  - intros (pre & post & -> & <-); split.
    + rewrite length_app; lia.
    + rewrite skipn_app, Nat.sub_diag, skipn_all; simpl.
      apply startswith_iff; eauto.
  - intros [Hi H]; apply startswith_iff in H; destruct H as [post H].
    exists (firstn i s), post; split.
    + rewrite <- H; symmetry; apply firstn_skipn.
    + rewrite length_firstn; lia.
Qed.

Lemma find_Some_bool (sub : str) : forall s i,
  find sub s = Some i ->
  i <= length s /\ startswith (skipn i s) sub = true /\
  forall j, j < i -> startswith (skipn j s) sub = false.
Proof.
  induction s as [|a s IH]; intros i H; simpl in H.
  - destruct (startswith [] sub) eqn:E; inversion H; subst.
    split; [|split]; [simpl; lia | exact E | intros; lia].
  - destruct (startswith (a :: s) sub) eqn:E.
    + inversion H; subst; split; [|split]; [simpl; lia | exact E | intros; lia].
    + destruct (find sub s) as [n|] eqn:F; simpl in H; inversion H; subst.
      destruct (IH n eq_refl) as (H1 & H2 & H3).
      split; [|split]; [simpl; lia | exact H2 |].
      intros [|j] Hj; [exact E | simpl; apply H3; lia].
Qed.

Lemma find_None_bool (sub : str) : forall s,
  find sub s = None -> forall j, startswith (skipn j s) sub = false.
Proof.
  induction s as [|a s IH]; intros H j; simpl in H.
  - destruct (startswith [] sub) eqn:E; [discriminate|].
    rewrite skipn_nil; exact E.
  - destruct (startswith (a :: s) sub) eqn:E; [discriminate|].
    destruct (find sub s) eqn:F; [discriminate|].
    destruct j; [exact E | simpl; apply IH; reflexivity].
Qed.

Lemma rfind_Some_bool (sub : str) : forall s i,
  rfind sub s = Some i ->
  i <= length s /\ startswith (skipn i s) sub = true /\
  forall j, i < j -> j <= length s -> startswith (skipn j s) sub = false.
Proof.
  induction s as [|a s IH]; intros i H; simpl in H.
  - destruct (startswith [] sub) eqn:E; inversion H; subst.
    split; [|split]; [simpl; lia | exact E | simpl; intros; lia].
  - destruct (rfind sub s) as [n|] eqn:F.
    + inversion H; subst.
      destruct (IH n eq_refl) as (H1 & H2 & H3).
      split; [|split]; [simpl; lia | exact H2 |].
      intros [|j] Hj Hl; [lia | simpl in *; apply H3; lia].
    + destruct (startswith (a :: s) sub) eqn:E; inversion H; subst.
      split; [|split]; [simpl; lia | exact E |].
      intros [|j] Hj Hl; [lia|]; simpl.
      clear - F. revert j; induction s as [|b s IHs]; intros j; simpl in F.
      * destruct (startswith [] sub) eqn:E; [discriminate|].
        rewrite skipn_nil; exact E.
      * destruct (rfind sub s) eqn:G; [discriminate|].
        destruct (startswith (b :: s) sub) eqn:E; [discriminate|].
        destruct j; [exact E | simpl; apply IHs; reflexivity].
Qed.

Lemma rfind_None_find (sub : str) : forall s,
  rfind sub s = None <-> find sub s = None.
Proof.
  induction s as [|a s IH]; simpl.
  - reflexivity.
  - destruct (rfind sub s), (find sub s), (startswith (a :: s) sub);
      simpl; try tauto; split; try discriminate;
      destruct IH as [I1 I2]; intros _;
      (discriminate (I1 eq_refl) || discriminate (I2 eq_refl)).
Qed.

(** [find] returns the lowest occurrence. *)
Lemma find_Some (sub s : str) (i : nat) :
  find sub s = Some i ->
  occurs_at sub s i /\ forall j, j < i -> ~ occurs_at sub s j.
Proof.
  intros H; apply find_Some_bool in H; destruct H as (H1 & H2 & H3).
  split; [apply occurs_at_iff; auto|].
  intros j Hj O; apply occurs_at_iff in O; destruct O as [_ O].
  rewrite (H3 j Hj) in O; discriminate.
Qed.

Lemma find_None (sub s : str) :
  find sub s = None -> forall j, ~ occurs_at sub s j.
Proof.
  intros H j O; apply occurs_at_iff in O; destruct O as [_ O].
  rewrite (find_None_bool _ _ H j) in O; discriminate.
Qed.

(** [rfind] returns the highest occurrence. *)
Lemma rfind_Some (sub s : str) (i : nat) :
  rfind sub s = Some i ->
  occurs_at sub s i /\ forall j, i < j -> ~ occurs_at sub s j.
Proof.
  intros H; apply rfind_Some_bool in H; destruct H as (H1 & H2 & H3).
  split; [apply occurs_at_iff; auto|].
  intros j Hj O; apply occurs_at_iff in O; destruct O as [Hl O].
  rewrite (H3 j Hj Hl) in O; discriminate.
Qed.

Lemma rfind_None (sub s : str) :
  rfind sub s = None -> forall j, ~ occurs_at sub s j.
Proof. intros H; apply find_None, rfind_None_find, H. Qed.

(** [sub in s] is the existence of an occurrence. *)
Lemma contains_iff (sub s : str) :
  contains sub s = true <-> exists pre post, s = pre ++ sub ++ post.
Proof.
  unfold contains; destruct (find sub s) as [i|] eqn:F.
  - apply find_Some in F; destruct F as [(pre & post & E & _) _].
    split; eauto.
  - split; [discriminate|].
    intros (pre & post & E).
    exfalso; apply (find_None _ _ F (length pre)).
    exists pre, post; auto.
Qed.

Lemma contains_false_iff (sub s : str) :
  contains sub s = false <-> forall j, ~ occurs_at sub s j.
Proof.
  split.
  - intros H j (pre & post & E & _).
    assert (C : contains sub s = true) by (apply contains_iff; eauto).
    congruence.
  - intros H; destruct (contains sub s) eqn:C; [|reflexivity].
    apply contains_iff in C; destruct C as (pre & post & E).
    exfalso; apply (H (length pre)); exists pre, post; auto.
Qed.

End StrFacts.

(** ** Tokens: [split] and [join] *)

Module TokenFacts.

Lemma token_cons (c : char) (w : str) :
  isspace c = false -> Forall (fun c => isspace c = false) w -> token (c :: w).
Proof. intros Hc Hw; split; [discriminate | constructor; assumption]. Qed.

Lemma split_tokens (s : str) : Forall token (split s).
Proof.
  induction s as [|c cs IH]; simpl; [constructor|].
  destruct (isspace c) eqn:Hc; [exact IH|].
  destruct cs as [|d cs'].
  - repeat constructor; [discriminate | exact Hc].
  - destruct (isspace d) eqn:Hd.
    + constructor; [apply token_cons; auto | exact IH].
    + destruct (split (d :: cs')) as [|w ws].
      * repeat constructor; [discriminate | exact Hc].
      * inversion IH as [|? ? [_ Hw] Hws]; subst.
        constructor; [apply token_cons; auto | exact Hws].
Qed.

(** A token followed by whitespace is the first word. *)
Lemma split_token_app (w : str) (d : char) (rest : str) :
  token w -> isspace d = true -> split (w ++ d :: rest) = w :: split rest.
Proof.
  intros [Hne Hw] Hd; induction w as [|c w IH]; [congruence|].
  inversion Hw as [|? ? Hc Hw']; subst.
  destruct w as [|c' w'].
  - simpl; rewrite Hc, Hd; reflexivity.
  - assert (Hc' : isspace c' = false) by (inversion Hw'; assumption).
    specialize (IH ltac:(discriminate) Hw').
    change (split ((c :: c' :: w') ++ d :: rest))
      with (if isspace c then split ((c' :: w') ++ d :: rest)
            else if isspace c' then [c] :: split ((c' :: w') ++ d :: rest)
            else match split ((c' :: w') ++ d :: rest) with
                 | x :: ws => (c :: x) :: ws
                 | [] => [[c]]
                 end).
    rewrite Hc, Hc', IH; reflexivity.
Qed.

Lemma split_token (w : str) : token w -> split w = [w].
Proof.
  intros [Hne Hw]; induction w as [|c w IH]; [congruence|].
  inversion Hw as [|? ? Hc Hw']; subst.
  destruct w as [|c' w'].
  - simpl; rewrite Hc; reflexivity.
  - assert (Hc' : isspace c' = false) by (inversion Hw'; assumption).
    specialize (IH ltac:(discriminate) Hw').
    change (split (c :: c' :: w'))
      with (if isspace c then split (c' :: w')
            else if isspace c' then [c] :: split (c' :: w')
            else match split (c' :: w') with
                 | x :: ws => (c :: x) :: ws
                 | [] => [[c]]
                 end).
    rewrite Hc, Hc', IH; reflexivity.
Qed.

(** Splitting what was joined with single spaces gives the tokens back. *)
Lemma split_join (ws : list str) :
  Forall token ws -> split (join (lit " ") ws) = ws.
Proof.
  induction ws as [|w ws IH]; intros H; [reflexivity|].
  inversion H as [|? ? Hw Hws]; subst.
  destruct ws as [|w2 ws'].
  - apply split_token, Hw.
  - change (join (lit " ") (w :: w2 :: ws'))
      with (w ++ (ch " ") :: join (lit " ") (w2 :: ws')).
    rewrite split_token_app by (auto; reflexivity).
    rewrite IH by assumption; reflexivity.
Qed.

Lemma join_nil_iff (ws : list str) :
  Forall token ws -> (join (lit " ") ws = [] <-> ws = []).
Proof.
  intros H; split; [|intros ->; reflexivity].
  destruct ws as [|w ws]; [reflexivity|].
  inversion H as [|? ? [Hne _] _]; subst.
  destruct w; [congruence|].
  destruct ws; discriminate.
Qed.

Lemma Forall_filter {A} (P : A -> Prop) (f : A -> bool) (l : list A) :
  Forall P l -> Forall P (filter f l).
Proof.
  induction 1 as [|x l Hx Hl IH]; simpl; [constructor|].
  destruct (f x); [constructor|]; assumption.
Qed.

Lemma Forall_skipn {A} (P : A -> Prop) (n : nat) (l : list A) :
  Forall P l -> Forall P (skipn n l).
Proof.
  revert l; induction n as [|n IH]; intros l H; [exact H|].
  destruct H; simpl; [constructor | apply IH; assumption].
Qed.

Lemma Forall_lastn {A} (P : A -> Prop) (n : nat) (l : list A) :
  Forall P l -> Forall P (lastn n l).
Proof. apply Forall_skipn. Qed.

Lemma length_lastn {A} (n : nat) (l : list A) :
  length (lastn n l) = Nat.min n (length l).
Proof. unfold lastn; rewrite length_skipn; lia. Qed.

Lemma lastn_nil_iff {A} (n : nat) (l : list A) :
  0 < n -> (lastn n l = [] <-> l = []).
Proof.
  intros Hn; rewrite <- !length_zero_iff_nil, length_lastn; lia.
Qed.

(** Whitespace-only text strips to the empty string. *)
Lemma lstrip_spaces (s : str) : forallb isspace s = true -> lstrip s = [].
Proof.
  induction s as [|c s IH]; simpl; [reflexivity|].
  rewrite andb_true_iff; intros [-> H]; apply IH, H.
Qed.

Lemma strip_spaces (s : str) : forallb isspace s = true -> strip s = [].
Proof. intros H; unfold strip; rewrite lstrip_spaces by exact H; reflexivity. Qed.

End TokenFacts.

(** ** The extractor's stages *)

Module ExtractFacts.

Import StrFacts TokenFacts.

Lemma strip_stop_words_kept (c : str) :
  strip_stop_words c = join (lit " ") (kept_words c).
Proof.
  unfold strip_stop_words, kept_words.
  destruct (filter _ (split c)); reflexivity.
Qed.

Lemma kept_words_tokens (c : str) : Forall token (kept_words c).
Proof.
  unfold kept_words.
  destruct (filter _ (split c)) eqn:E.
  - apply Forall_lastn, split_tokens.
  - rewrite <- E; apply Forall_filter, split_tokens.
Qed.

Lemma kept_words_nil_iff (c : str) : kept_words c = [] <-> split c = [].
Proof.
  unfold kept_words.
  destruct (filter _ (split c)) eqn:E.
  - apply lastn_nil_iff; lia.
  - split; [discriminate|]; intros H; rewrite H in E; discriminate.
Qed.

Lemma split_strip_stop_words (c : str) :
  split (strip_stop_words c) = kept_words c.
Proof. rewrite strip_stop_words_kept; apply split_join, kept_words_tokens. Qed.

(** The cap stage on a candidate made of [ws] joined by spaces. *)
Lemma split_cap_join (ws : list str) :
  Forall token ws ->
  split (cap (join (lit " ") ws)) = if 3 <? length ws then lastn 2 ws else ws.
Proof.
  intros H; unfold cap; rewrite split_join by exact H.
  destruct (3 <? length ws).
  - apply split_join, Forall_lastn, H.
  - apply split_join, H.
Qed.

End ExtractFacts.

(** ** Intent detection *)

Module IntentFacts.

Import StrFacts.

Lemma existsb_contains_iff (keywords : list str) (text : str) :
  existsb (fun w => contains w text) keywords = true
  <-> exists w, In w keywords /\ substring w text.
Proof.
  rewrite existsb_exists; split; intros (w & Hin & H); exists w;
    (split; [exact Hin | apply contains_iff; exact H]).
Qed.

(** C3. Classification sets wants_weather exactly when the lower-cased
    text has "weather" or "temperature" as a substring; it sets wants_places
    exactly when the text has one of "place", "places", "visit",
    "attraction", "sightseeing" as a substring or when it has none of these
    and no weather keyword either (the forced default); the two flags are
    never both false. *)
Theorem classify_intent (user_input : str) :
  let text := lower user_input in
  let weather := substring (lit "weather") text
                 \/ substring (lit "temperature") text in
  let places := substring (lit "place") text
                \/ substring (lit "places") text
                \/ substring (lit "visit") text
                \/ substring (lit "attraction") text
                \/ substring (lit "sightseeing") text in
  (wants_weather (classify user_input) = true <-> weather)
  /\ (wants_places (classify user_input) = true
      <-> places \/ (~ weather /\ ~ places))
  /\ (wants_weather (classify user_input)
      || wants_places (classify user_input) = true).
Proof.
  cbv zeta; unfold substring.
  rewrite <- !contains_iff.
  unfold classify, places_keywords; cbn [existsb map].
  destruct (contains (lit "temperature") (lower user_input)),
           (contains (lit "weather") (lower user_input)),
           (contains (lit "place") (lower user_input)),
           (contains (lit "places") (lower user_input)),
           (contains (lit "visit") (lower user_input)),
           (contains (lit "attraction") (lower user_input)),
           (contains (lit "sightseeing") (lower user_input));
    cbn [negb andb orb wants_weather wants_places];
    intuition congruence.
Qed.

End IntentFacts.

(** ** Anchor and truncation *)

Module AnchorFacts.

Import StrFacts TokenFacts ExtractFacts.

Lemma rfind_rightmost (sub s : str) (i : nat) :
  rightmost sub s i -> rfind sub s = Some i.
Proof.
  intros [Ho Hmax]; destruct (rfind sub s) as [k|] eqn:R.
  - apply rfind_Some in R; destruct R as [Hk Hkmax].
    destruct (Nat.lt_trichotomy i k) as [L|[E|L]].
    + exfalso; exact (Hmax k L Hk).
    + congruence.
    + exfalso; exact (Hkmax i L Ho).
  - exfalso; exact (rfind_None _ _ R i Ho).
Qed.

Lemma find_leftmost (sub s : str) (i : nat) :
  leftmost sub s i -> find sub s = Some i.
Proof.
  intros [Ho Hmin]; destruct (find sub s) as [k|] eqn:R.
  - apply find_Some in R; destruct R as [Hk Hkmin].
    destruct (Nat.lt_trichotomy i k) as [L|[E|L]].
    + exfalso; exact (Hkmin i L Ho).
    + congruence.
    + exfalso; exact (Hmin k L Hk).
  - exfalso; exact (find_None _ _ R i Ho).
Qed.

Lemma find_not_contains (sub s : str) :
  contains sub s = false -> find sub s = None.
Proof. unfold contains; destruct (find sub s); [discriminate | reflexivity]. Qed.

(** What lines 161-165 compute.  The index [i] is an index of the lowered
    text; it is applied to the text, and the two agree when lower-casing
    keeps the length of what precedes (see [lower_aligned]). *)
Lemma anchor_after_last_to (user_input : str) :
  let text := strip user_input in
  (forall i, rightmost (lit " to ") (lower text) i ->
     anchor text = strip (skipn (i + 4) text)
     /\ extract_place user_input
        = cap (strip_stop_words
                 (truncate separators (strip (skipn (i + 4) text)))))
  /\ (contains (lit " to ") (lower text) = false ->
      anchor text = text
      /\ extract_place user_input
         = cap (strip_stop_words (truncate separators text))).
Proof.
  cbv zeta; split.
  - intros i H; apply rfind_rightmost in H.
    unfold extract_place, anchor; rewrite H; split; reflexivity.
  - intros H; apply find_not_contains, rfind_None_find in H.
    unfold extract_place, anchor; rewrite H; split; reflexivity.
Qed.

(** The same, for the markers of the truncation loop: an earlier marker
    that is absent is skipped. *)
Lemma truncate_skip (seps1 seps2 : list str) (candidate : str) :
  (forall m, In m seps1 -> contains m (lower candidate) = false) ->
  truncate (seps1 ++ seps2) candidate = truncate seps2 candidate.
Proof.
  induction seps1 as [|m seps1 IH]; intros H; [reflexivity|].
  simpl; rewrite (find_not_contains _ _ (H m (or_introl eq_refl))).
  apply IH; intros m' Hm'; apply H; right; exact Hm'.
Qed.

(** What the loop of lines 167-171 computes: the markers are tried in
    the order ",", "?", ".", " and ", " what "; for the first of them that
    occurs in the lowered candidate, the candidate is cut at the index of
    that occurrence in the lowered candidate and trimmed; a candidate with
    none of the markers is left as it is. *)
Lemma truncate_first_marker (candidate : str) :
  separators = map lit [","; "?"; "."; " and "; " what "]%string
  /\ (forall seps1 sep seps2 i,
        separators = seps1 ++ sep :: seps2 ->
        (forall m, In m seps1 -> contains m (lower candidate) = false) ->
        leftmost sep (lower candidate) i ->
        truncate separators candidate = strip (firstn i candidate))
  /\ ((forall m, In m separators -> contains m (lower candidate) = false) ->
      truncate separators candidate = candidate).
Proof.
  split; [reflexivity|]; split.
  - intros seps1 sep seps2 i -> Hbefore Hfirst.
    rewrite truncate_skip by exact Hbefore.
    simpl; rewrite (find_leftmost _ _ _ Hfirst); reflexivity.
  - intros H; rewrite <- (app_nil_r separators).
    rewrite truncate_skip by exact H; reflexivity.
Qed.

End AnchorFacts.

(** ** Fallback, cap and the empty candidate *)

Module CandidateFacts.

Import StrFacts TokenFacts ExtractFacts.

Lemma cap_join (ws : list str) :
  Forall token ws ->
  cap (join (lit " ") ws)
  = if 3 <? length ws then join (lit " ") (lastn 2 ws) else join (lit " ") ws.
Proof. intros H; unfold cap; rewrite split_join by exact H; reflexivity. Qed.

Lemma cap_join_nil_iff (ws : list str) :
  Forall token ws -> (cap (join (lit " ") ws) = [] <-> ws = []).
Proof.
  intros H; rewrite cap_join by exact H.
  destruct (3 <? length ws).
  - rewrite join_nil_iff by (apply Forall_lastn, H).
    apply lastn_nil_iff; lia.
  - apply join_nil_iff, H.
Qed.

(** C6. When no token survives the stop-word filter, the candidate becomes
    the last two tokens of the candidate it was before the filter; the cap
    then keeps the last two tokens of a candidate of more than three; and
    the candidate that [extract_place] returns has at most three tokens. *)
Theorem extract_place_at_most_three (user_input : str) :
  let before := truncate separators (anchor (strip user_input)) in
  let words := split before in
  (filter (fun w => negb (is_stop_word w)) words = [] ->
   strip_stop_words before = join (lit " ") (lastn 2 words))
  /\ extract_place user_input = cap (strip_stop_words before)
  /\ (forall c, 3 < length (split c) ->
        cap c = join (lit " ") (lastn 2 (split c)))
  /\ (forall c, length (split c) <= 3 -> cap c = c)
  /\ length (split (extract_place user_input)) <= 3.
Proof.
  cbv zeta; repeat split.
  - intros H; unfold strip_stop_words; rewrite H; reflexivity.
  - intros c H; unfold cap; apply Nat.ltb_lt in H; rewrite H; reflexivity.
  - intros c H; unfold cap.
    destruct (Nat.ltb_spec 3 (length (split c))); [lia | reflexivity].
  - unfold extract_place; rewrite strip_stop_words_kept.
    rewrite split_cap_join by apply kept_words_tokens.
    destruct (Nat.ltb_spec 3 (length (kept_words
      (truncate separators (anchor (strip user_input)))))).
    + rewrite length_lastn; lia.
    + assumption.
Qed.

(** C2, amended. The extractor returns the empty string exactly when the
    candidate left by anchoring and truncation has no token; that is so
    for every empty or all-whitespace text. *)
Theorem extract_place_empty_iff (user_input : str) :
  (extract_place user_input = []
   <-> split (truncate separators (anchor (strip user_input))) = [])
  /\ (forallb isspace user_input = true -> extract_place user_input = []).
Proof.
  assert (Hiff : extract_place user_input = []
     <-> split (truncate separators (anchor (strip user_input))) = []).
  { unfold extract_place; rewrite strip_stop_words_kept.
    rewrite cap_join_nil_iff by apply kept_words_tokens.
    apply kept_words_nil_iff. }
  split; [exact Hiff|].
  intros H; apply Hiff; rewrite (strip_spaces _ H); reflexivity.
Qed.

End CandidateFacts.

(** ** The orchestrator *)

Section AgentFacts.

Variable float : Type.
Variable fmt_float : float -> str.
Variable net : upstream float.

Ltac start_request E :=
  unfold run, handle_request;
  destruct (extract_place _) as [|? ?] eqn:E; [congruence|];
  unfold bind, try_except, geocode, get_weather, get_places, request, bind,
    ret, raise.

(** C7. When the geocoder finds nothing for the extracted candidate, the
    reply is "I don't know this place exist." and the geocoding request is
    the only one sent; when the extracted candidate is empty, the reply is
    the fixed prompt and no request is sent. *)
Theorem no_lookup_without_location (user_input : str) :
  (extract_place user_input = [] ->
   run (handle_request fmt_float net user_input)
   = (Return (lit "Please tell me which place you want to go."), []))
  /\ (extract_place user_input <> [] ->
      nominatim net (extract_place user_input) = Some [] ->
      run (handle_request fmt_float net user_input)
      = (Return (lit "I don't know this place exist."),
         [Nominatim float (extract_place user_input)])).
Proof.
  split.
  - intros E; unfold run, handle_request; rewrite E; reflexivity.
  - intros Hne Hgeo; revert Hgeo; start_request E.
    intros ->; reflexivity.
Qed.

(** A request that resolves and asks for the weather alone. *)
Lemma run_weather_only (user_input : str) (first : geo_hit float)
  (others : list (geo_hit float)) (data : forecast float) :
  classify user_input = {| wants_weather := true; wants_places := false |} ->
  extract_place user_input <> [] ->
  nominatim net (extract_place user_input) = Some (first :: others) ->
  open_meteo net (hit_lat first) (hit_lon first) = Some data ->
  run (handle_request fmt_float net user_input)
  = (Return (weather_only_reply fmt_float
               (short_name (extract_place user_input) first)
               (current_temperature data)
               (max_or_none (precipitation_probability data))),
     [Nominatim float (extract_place user_input);
      OpenMeteo (hit_lat first) (hit_lon first)]).
Proof.
  intros Hi Hne Hgeo Hw; revert Hgeo; start_request E.
  intros ->; simpl; rewrite Hi, Hw; reflexivity.
Qed.

(** C8. In the weather-only branch the reply is the full sentence when
    temperature and rain chance are both present, the temperature sentence
    (which has no rain clause) when only the temperature is, and the
    apology naming the resolved display name when the temperature is
    absent. *)
Theorem weather_only_replies (user_input : str) (first : geo_hit float)
  (others : list (geo_hit float)) (data : forecast float) :
  classify user_input = {| wants_weather := true; wants_places := false |} ->
  extract_place user_input <> [] ->
  nominatim net (extract_place user_input) = Some (first :: others) ->
  open_meteo net (hit_lat first) (hit_lon first) = Some data ->
  let display_name := short_name (extract_place user_input) first in
  exists reply,
    run (handle_request fmt_float net user_input)
    = (Return reply,
       [Nominatim float (extract_place user_input);
        OpenMeteo (hit_lat first) (hit_lon first)])
    /\ match current_temperature data,
             max_or_none (precipitation_probability data) with
       | Some temp, Some rain_chance =>
           reply = lit "In " ++ display_name ++ lit " it's currently "
                   ++ fmt_float temp ++ degrees_c ++ lit " with a chance of "
                   ++ fmt_int rain_chance ++ lit "% to rain."
       | Some temp, None =>
           reply = lit "In " ++ display_name ++ lit " it's currently "
                   ++ fmt_float temp ++ degrees_c ++ lit "."
       | None, _ =>
           reply = lit "Sorry, I couldn't get the weather for "
                   ++ display_name ++ lit "."
       end.
Proof.
  intros Hi Hne Hgeo Hw display_name.
  eexists; split; [exact (run_weather_only _ _ _ _ Hi Hne Hgeo Hw)|].
  unfold weather_only_reply.
  destruct (current_temperature data) as [temp|];
    [destruct (max_or_none (precipitation_probability data))|]; reflexivity.
Qed.

(** C10. In the combined branch a weather fragment, when weather is
    wanted, is the full sentence built from both fields as they are (an
    absent field prints as "None"); the places fragment is the prefixed
    list when the lookup returns names, with the prefix chosen by whether
    weather is wanted, and the apology otherwise; the reply is the
    fragments joined by one space. *)
Theorem combined_reply (user_input : str) (first : geo_hit float)
  (others : list (geo_hit float)) (elements : list element) :
  wants_places (classify user_input) = true ->
  extract_place user_input <> [] ->
  nominatim net (extract_place user_input) = Some (first :: others) ->
  overpass net (hit_lat first) (hit_lon first) = Some elements ->
  let place := extract_place user_input in
  let lat := hit_lat first in
  let lon := hit_lon first in
  let display_name := short_name place first in
  let places := collect_names 5 [] elements in
  let places_part (with_weather : bool) :=
    match places with
    | [] => lit "Sorry, I couldn't find tourist places near " ++ display_name
            ++ lit "."
    | _ :: _ =>
        (if with_weather then lit "And these are the places you can go:"
         else lit "In " ++ display_name
              ++ lit " these are the places you can go,")
        ++ newline ++ join newline places
    end in
  (forall data,
     wants_weather (classify user_input) = true ->
     open_meteo net lat lon = Some data ->
     run (handle_request fmt_float net user_input)
     = (Return
          (join (lit " ")
             [lit "In " ++ display_name ++ lit " it's currently "
              ++ fmt_opt fmt_float (current_temperature data) ++ degrees_c
              ++ lit " with a chance of "
              ++ fmt_opt fmt_int (max_or_none (precipitation_probability data))
              ++ lit "% to rain.";
              places_part true]),
        [Nominatim float place; OpenMeteo lat lon; Overpass lat lon]))
  /\ (wants_weather (classify user_input) = false ->
      run (handle_request fmt_float net user_input)
      = (Return (join (lit " ") [places_part false]),
         [Nominatim float place; Overpass lat lon])).
Proof.
  intros Hp Hne Hgeo Ho; cbv zeta; split.
  - intros data Hw Hm; revert Hgeo; start_request E.
    intros ->; simpl; rewrite Hw, Hp, Hm, Ho; simpl.
    unfold places_fragment, places_prefix, short_name.
    destruct (collect_names 5 [] elements); reflexivity.
  - intros Hw; revert Hgeo; start_request E.
    intros ->; simpl; rewrite Hw, Hp, Ho; simpl.
    unfold places_fragment, places_prefix, short_name.
    destruct (collect_names 5 [] elements); reflexivity.
Qed.

(** The request for "What's the weather in Paris?": the intent is weather
    only, the candidate is "What's Paris", and that is what the geocoder is
    asked for. *)
Lemma scenario_weather_in_paris (first : geo_hit float)
  (others : list (geo_hit float)) (data : forecast float) :
  let question := lit "What's the weather in Paris?" in
  nominatim net (lit "What's Paris") = Some (first :: others) ->
  open_meteo net (hit_lat first) (hit_lon first) = Some data ->
  classify question = {| wants_weather := true; wants_places := false |}
  /\ truncate separators (anchor (strip question))
     = lit "What's the weather in Paris"
  /\ filter is_stop_word (split (lit "What's the weather in Paris"))
     = map lit ["the"; "weather"; "in"]%string
  /\ extract_place question = lit "What's Paris"
  /\ run (handle_request fmt_float net question)
     = (Return (weather_only_reply fmt_float
                  (short_name (lit "What's Paris") first)
                  (current_temperature data)
                  (max_or_none (precipitation_probability data))),
        [Nominatim float (lit "What's Paris");
         OpenMeteo (hit_lat first) (hit_lon first)]).
Proof.
  intros question Hgeo Hw.
  assert (E : extract_place question = lit "What's Paris")
    by (vm_compute; reflexivity).
  repeat split; try (vm_compute; reflexivity).
  rewrite <- E in Hgeo |- *.
  apply (run_weather_only question first others data);
    [vm_compute; reflexivity | rewrite E; discriminate | exact Hgeo | exact Hw].
Qed.

End AgentFacts.

(** ** The places loop *)

Module PlacesFacts.

Import StrFacts.

Lemma in_names_iff (name : str) (names : list str) :
  in_names name names = true <-> In name names.
Proof.
  unfold in_names; rewrite existsb_exists; split.
  - intros (x & Hin & H); apply eqb_eq in H; subst; exact Hin.
  - intros H; exists name; split; [exact H | apply eqb_refl].
Qed.

Lemma collect_names_NoDup (limit : Z) (elements : list element) :
  forall names, NoDup names -> NoDup (collect_names limit names elements).
Proof.
  induction elements as [|el rest IH]; intros names H; simpl; [exact H|].
  set (names' := match tag_name el with
                 | Some ((_ :: _) as name) =>
                     if negb (in_names name names) then names ++ [name]
                     else names
                 | _ => names
                 end).
  assert (H' : NoDup names').
  { subst names'; destruct (tag_name el) as [[|c name]|]; try exact H.
    destruct (in_names (c :: name) names) eqn:I; simpl; [exact H|].
    apply NoDup_app; [exact H | repeat constructor; intros [] |].
    intros x Hx [<-|[]].
    apply in_names_iff in Hx; congruence. }
  destruct (limit <=? Z.of_nat (length names'))%Z; [exact H' | apply IH, H'].
Qed.

(** The result extends [names] by the first new names of the response, in
    the order of the response. *)
Lemma collect_names_prefix (limit : Z) (elements : list element) :
  forall names, exists k,
    collect_names limit names elements
    = names ++ firstn k (fresh names (named elements)).
Proof.
  assert (stop : forall names l : list str, exists k, names = names ++ firstn k l)
    by (intros names l; exists 0; rewrite app_nil_r; reflexivity).
  induction elements as [|el rest IH]; intros names; simpl; [apply stop|].
  destruct (tag_name el) as [[|c name]|].
  - destruct (limit <=? _)%Z; [apply stop | apply IH].
  - destruct (in_names (c :: name) names) eqn:I; simpl; rewrite ?I.
    + destruct (limit <=? _)%Z; [apply stop | apply IH].
    + destruct (limit <=? _)%Z.
      * exists 1; reflexivity.
      * destruct (IH (names ++ [c :: name])) as [k Hk].
        exists (S k); etransitivity; [exact Hk|].
        rewrite <- app_assoc; reflexivity.
  - destruct (limit <=? _)%Z; [apply stop | apply IH].
Qed.

Lemma collect_names_length (limit : Z) (elements : list element) :
  forall names,
    (Z.of_nat (length names) < Z.max 1 limit)%Z ->
    (Z.of_nat (length (collect_names limit names elements))
     <= Z.max 1 limit)%Z.
Proof.
  induction elements as [|el rest IH]; intros names H; simpl; [lia|].
  set (names' := match tag_name el with
                 | Some ((_ :: _) as name) =>
                     if negb (in_names name names) then names ++ [name]
                     else names
                 | _ => names
                 end).
  assert (H' : (Z.of_nat (length names') <= Z.max 1 limit)%Z).
  { subst names'; destruct (tag_name el) as [[|c name]|]; try lia.
    destruct (negb (in_names (c :: name) names)); [|lia].
    rewrite length_app; simpl; lia. }
  destruct (Z.leb_spec limit (Z.of_nat (length names'))); [exact H'|].
  apply IH; lia.
Qed.

(** With a positive limit, and so with the orchestrator's 5, the list is
    within the limit. *)
Lemma collect_names_within (limit : Z) (elements : list element) :
  (1 <= limit)%Z ->
  (Z.of_nat (length (collect_names limit [] elements)) <= limit)%Z.
Proof.
  intros H; pose proof (collect_names_length limit elements []) as L.
  simpl in L; lia.
Qed.

Lemma collect_names_five (elements : list element) :
  length (collect_names 5 [] elements) <= 5.
Proof.
  pose proof (collect_names_within 5 elements ltac:(lia)); lia.
Qed.

End PlacesFacts.

(** ** Concrete requests *)

Module Scenarios.

Import StrFacts AnchorFacts.

(** C1. For "What's the weather in Paris?" the intent is weather only,
    but the extractor yields "What's Paris", not "Paris": "the", "weather"
    and "in" are stripped, and "What's" stays, because the stop-word set has
    "what", "is", "i'm" and "let's" but not "what's". *)
Theorem whats_paris_not_paris :
  classify (lit "What's the weather in Paris?")
  = {| wants_weather := true; wants_places := false |}
  /\ split (truncate separators
              (anchor (strip (lit "What's the weather in Paris?"))))
     = map lit ["What's"; "the"; "weather"; "in"; "Paris"]%string
  /\ map is_stop_word
       (map lit ["what"; "is"; "i'm"; "let's"; "what's"]%string)
     = [true; true; true; true; false]
  /\ extract_place (lit "What's the weather in Paris?") = lit "What's Paris"
  /\ extract_place (lit "What's the weather in Paris?") <> lit "Paris".
Proof.
  repeat split; try (vm_compute; reflexivity).
  vm_compute; discriminate.
Qed.

Lemma scenario_weather_in_paris_witness :
  classify (lit "What's the weather in Paris?")
  = {| wants_weather := true; wants_places := false |}
  /\ extract_place (lit "What's the weather in Paris?") = lit "What's Paris"
  /\ run (handle_request fmt_int Demo.net (lit "What's the weather in Paris?"))
     = (Return (weather_sentence (lit "Paris") (lit "21") (lit "35")),
        [Nominatim Z (lit "What's Paris"); OpenMeteo 48%Z 2%Z]).
Proof.
  destruct (scenario_weather_in_paris Z fmt_int Demo.net Demo.paris []
              Demo.mild eq_refl eq_refl) as (H1 & _ & _ & H2 & H3).
  split; [exact H1 | split; [exact H2 | exact H3]].
Defined.

(** C2: "?" has a non-whitespace character and its candidate is empty. *)
Lemma question_mark_gives_empty :
  ~ (forall user_input,
       existsb (fun c => negb (isspace c)) user_input = true ->
       extract_place user_input <> []).
Proof. intros H; apply (H (lit "?")); vm_compute; reflexivity. Qed.

Lemma extract_place_empty_iff_witness :
  forallb isspace (lit "  ") = true /\ extract_place (lit "  ") = [].
Proof.
  split; [reflexivity|].
  apply (proj2 (CandidateFacts.extract_place_empty_iff (lit "  "))).
  reflexivity.
Defined.

(** C4. The text "I to Rome, Italy" written with U+0130 for its first
    letter is trimmed and has one " to ", followed by "Rome, Italy"; but
    [_extract_place] continues from "ome, Italy" and returns "ome": the
    lowered text is one character longer, and the index found in it is
    applied to the text. *)
Theorem anchor_after_dotted_I :
  let text := dotted_I :: lit " to Rome, Italy" in
  strip text = text
  /\ text = [dotted_I] ++ lit " to " ++ lit "Rome, Italy"
  /\ lower text = lit "i" ++ [775%N] ++ lit " to rome, italy"
  /\ rfind (lit " to ") (lower text) = Some 2
  /\ find (lit " to ") text = Some 1
  /\ anchor (strip text) = lit "ome, Italy"
  /\ extract_place text = lit "ome".
Proof. repeat split. Qed.

(** C5. In "Istanbul, Turkey" written with U+0130 for its first letter
    the first marker in priority order is the comma, and the portion before
    it is the city name; but the truncation loop keeps the comma, and
    [_extract_place] returns the name with the comma: the index of the
    marker is found in the lowered candidate, which is one character
    longer, and applied to the candidate. *)
Theorem truncate_after_dotted_I :
  let candidate := dotted_I :: lit "stanbul, Turkey" in
  candidate = (dotted_I :: lit "stanbul") ++ lit "," ++ lit " Turkey"
  /\ find (lit ",") candidate = Some 8
  /\ find (lit ",") (lower candidate) = Some 9
  /\ truncate separators candidate = dotted_I :: lit "stanbul,"
  /\ extract_place candidate = dotted_I :: lit "stanbul,".
Proof. repeat split. Qed.

Lemma anchor_after_last_to_witness :
  rightmost (lit " to ") (lower (strip (lit "I want to go to Paris"))) 12
  /\ anchor (strip (lit "I want to go to Paris")) = lit "Paris"
  /\ extract_place (lit "I want to go to Paris") = lit "Paris".
Proof.
  assert (R : rightmost (lit " to ")
                (lower (strip (lit "I want to go to Paris"))) 12)
    by (apply rfind_Some; vm_compute; reflexivity).
  split; [exact R|].
  exact (proj1 (anchor_after_last_to (lit "I want to go to Paris")) 12 R).
Defined.

Lemma truncate_first_marker_witness :
  leftmost (lit ".") (lower (lit "Rome and Paris. Then what else")) 14
  /\ truncate separators (lit "Rome and Paris. Then what else")
     = lit "Rome and Paris".
Proof.
  assert (L : leftmost (lit ".") (lower (lit "Rome and Paris. Then what else"))
                14)
    by (apply find_Some; vm_compute; reflexivity).
  split; [exact L|].
  refine (proj1 (proj2 (truncate_first_marker
                          (lit "Rome and Paris. Then what else")))
            (map lit [","; "?"]%string) (lit ".")
            (map lit [" and "; " what "]%string) 14 eq_refl _ L).
  intros m [<-|[<-|[]]]; reflexivity.
Defined.

Lemma extract_place_at_most_three_witness :
  filter (fun w => negb (is_stop_word w)) (split (lit "I'm going")) = []
  /\ strip_stop_words (lit "I'm going") = lit "I'm going".
Proof.
  split; [reflexivity|].
  exact (proj1 (CandidateFacts.extract_place_at_most_three (lit "I'm going"))
           eq_refl).
Defined.

Lemma no_lookup_without_location_witness :
  run (handle_request fmt_int Demo.net (lit "places to visit in Atlantis"))
  = (Return (lit "I don't know this place exist."),
     [Nominatim Z (lit "Atlantis")])
  /\ run (handle_request fmt_int Demo.net (lit " , "))
     = (Return (lit "Please tell me which place you want to go."), []).
Proof.
  split.
  - refine (proj2 (no_lookup_without_location Z fmt_int Demo.net
                     (lit "places to visit in Atlantis")) _ eq_refl).
    vm_compute; discriminate.
  - exact (proj1 (no_lookup_without_location Z fmt_int Demo.net (lit " , "))
             eq_refl).
Defined.

Lemma weather_only_replies_witness :
  exists reply,
    run (handle_request fmt_int Demo.dry_net (lit "temperature in Paris"))
    = (Return reply, [Nominatim Z (lit "Paris"); OpenMeteo 48%Z 2%Z])
    /\ reply = lit "In Paris it's currently 21" ++ degrees_c ++ lit ".".
Proof.
  refine (weather_only_replies Z fmt_int Demo.dry_net
            (lit "temperature in Paris")
            Demo.paris [] Demo.no_rain_data eq_refl _ eq_refl eq_refl).
  vm_compute; discriminate.
Defined.

Lemma combined_reply_witness :
  run (handle_request fmt_int Demo.net
         (lit "weather and places to visit in Paris"))
  = (Return
       (lit "In Paris it's currently 21" ++ degrees_c
        ++ lit " with a chance of 35% to rain."
        ++ lit " And these are the places you can go:"
        ++ newline ++ lit "Louvre" ++ newline ++ lit "Tuileries"),
     [Nominatim Z (lit "Paris"); OpenMeteo 48%Z 2%Z; Overpass 48%Z 2%Z])
  /\ run (handle_request fmt_int Demo.net (lit "I'm going to Tokyo"))
     = (Return
          (lit "In Paris these are the places you can go,"
           ++ newline ++ lit "Louvre" ++ newline ++ lit "Tuileries"),
        [Nominatim Z (lit "Tokyo"); Overpass 48%Z 2%Z]).
Proof.
  split.
  - refine (proj1 (combined_reply Z fmt_int Demo.net
                     (lit "weather and places to visit in Paris")
                     Demo.paris [] Demo.sights eq_refl _ eq_refl eq_refl)
              Demo.mild eq_refl eq_refl).
    vm_compute; discriminate.
  - refine (proj2 (combined_reply Z fmt_int Demo.net
                     (lit "I'm going to Tokyo")
                     Demo.paris [] Demo.sights eq_refl _ eq_refl eq_refl)
              eq_refl).
    vm_compute; discriminate.
Defined.

(** C9: asked for at most 0 names, [get_places] returns one, because the
    limit is tested only after a name has been appended. *)
Lemma get_places_limit_zero :
  run (get_places Demo.park_net 48%Z 2%Z 0)
  = (Return [lit "Park"], [Overpass 48%Z 2%Z])
  /\ collect_names 0 [] Demo.one_park = [lit "Park"]
  /\ (0 < Z.of_nat (length (collect_names 0 [] Demo.one_park)))%Z.
Proof. repeat split. Qed.

End Scenarios.

(** * Further properties of the code *)

(** ** Characters *)

Module CharFacts.

Import StrFacts.

Lemma isspace_In (c : char) : isspace c = true <-> In c whitespace.
Proof.
  unfold isspace; rewrite existsb_exists; split.
  - intros (w & Hw & E); apply N.eqb_eq in E; subst; exact Hw.
  - intros H; exists c; split; [exact H | apply N.eqb_refl].
Qed.

(** Lower-casing leaves a whitespace character as it is. *)
Lemma lower_char_space (c : char) : isspace c = true -> lower_char c = [c].
Proof.
  intros H; apply isspace_In in H.
  assert (F : forallb (fun w => Str.eqb (lower_char w) [w]) whitespace = true)
    by (vm_compute; reflexivity).
  rewrite forallb_forall in F; apply eqb_eq, F, H.
Qed.

Lemma lower_spaces (s : str) : forallb isspace s = true -> lower s = s.
Proof.
  induction s as [|c s IH]; simpl; [reflexivity|].
  rewrite andb_true_iff; intros [Hc H].
  rewrite (lower_char_space _ Hc), (IH H); reflexivity.
Qed.

(** Apart from U+0130 a character lowers to one character. *)
Lemma lower_char_single (c : char) :
  c <> dotted_I -> lower_char c = [simple_lower c].
Proof.
  intros H; unfold lower_char.
  destruct (N.eqb_spec c dotted_I); [contradiction | reflexivity].
Qed.

(** A text without U+0130 is lowered character by character, so that an
    index of the lowered text is an index of the text. *)
Lemma lower_aligned (s : str) :
  ~ In dotted_I s -> lower s = map simple_lower s.
Proof.
  induction s as [|c s IH]; simpl; [reflexivity|]; intros H.
  rewrite lower_char_single, IH by tauto; reflexivity.
Qed.

Lemma length_lower_char (c : char) : 1 <= length (lower_char c).
Proof. unfold lower_char; destruct (c =? dotted_I)%N; simpl; lia. Qed.

(** The lowered text is never shorter than the text. *)
Lemma length_lower (s : str) : length s <= length (lower s).
Proof.
  induction s as [|c s IH]; simpl; [lia|].
  rewrite length_app; pose proof (length_lower_char c); lia.
Qed.

Lemma lower_app (a b : str) : lower (a ++ b) = lower a ++ lower b.
Proof. apply flat_map_app. Qed.

End CharFacts.

(** ** [strip] *)

Module StripFacts.

Import StrFacts TokenFacts.

Lemma lstrip_split (s : str) :
  exists pre, s = pre ++ lstrip s /\ forallb isspace pre = true.
Proof.
  induction s as [|c s (pre & E & H)]; simpl; [exists []; auto|].
  destruct (isspace c) eqn:Hc.
  - exists (c :: pre); simpl; rewrite Hc, H; split; [congruence | reflexivity].
  - exists []; auto.
Qed.

Lemma lstrip_head (s : str) : solid_head (lstrip s).
Proof.
  induction s as [|c s IH]; simpl; [exact I|].
  destruct (isspace c) eqn:Hc; [exact IH | exact Hc].
Qed.

Lemma lstrip_solid (s : str) : solid_head s -> lstrip s = s.
Proof. destruct s as [|c s]; simpl; [reflexivity | intros ->; reflexivity]. Qed.

Lemma lstrip_idem (s : str) : lstrip (lstrip s) = lstrip s.
Proof. apply lstrip_solid, lstrip_head. Qed.

Lemma lstrip_snoc (x : str) (c : char) :
  isspace c = false -> lstrip (x ++ [c]) = lstrip x ++ [c].
Proof.
  intros Hc; induction x as [|a x IH]; simpl; [rewrite Hc; reflexivity|].
  destruct (isspace a); [exact IH | reflexivity].
Qed.

Lemma rstrip_cons (c : char) (t : str) :
  isspace c = false -> rstrip (c :: t) = c :: rstrip t.
Proof.
  intros Hc; unfold rstrip; simpl.
  rewrite lstrip_snoc by exact Hc.
  rewrite rev_app_distr; reflexivity.
Qed.

Lemma rstrip_idem (s : str) : rstrip (rstrip s) = rstrip s.
Proof. unfold rstrip; rewrite rev_involutive, lstrip_idem; reflexivity. Qed.

Lemma rstrip_solid_head (t : str) : solid_head t -> solid_head (rstrip t).
Proof.
  destruct t as [|c t]; [intros _; exact I|].
  simpl; intros Hc; rewrite rstrip_cons by exact Hc; exact Hc.
Qed.

Lemma strip_solid_head (s : str) : solid_head (strip s).
Proof. apply rstrip_solid_head, lstrip_head. Qed.

Lemma strip_idem (s : str) : strip (strip s) = strip s.
Proof.
  unfold strip at 1.
  rewrite (lstrip_solid _ (strip_solid_head s)).
  unfold strip; apply rstrip_idem.
Qed.

Lemma rstrip_split (s : str) :
  exists post, s = rstrip s ++ post /\ forallb isspace post = true.
Proof.
  destruct (lstrip_split (rev s)) as (pre & E & H).
  exists (rev pre); split.
  - unfold rstrip; rewrite <- rev_app_distr, <- E, rev_involutive; reflexivity.
  - rewrite forallb_forall in *; intros x Hx; apply H, in_rev, Hx.
Qed.

(** [strip] removes a whitespace prefix and a whitespace suffix. *)
Lemma strip_split (s : str) :
  exists pre post,
    s = pre ++ strip s ++ post
    /\ forallb isspace pre = true /\ forallb isspace post = true.
Proof.
  destruct (lstrip_split s) as (pre & E1 & H1).
  destruct (rstrip_split (lstrip s)) as (post & E2 & H2).
  exists pre, post; repeat split; try assumption.
  unfold strip; rewrite <- E2; exact E1.
Qed.

End StripFacts.

(** ** Keywords and surrounding whitespace *)

Module PadFacts.

Import StrFacts TokenFacts CharFacts StripFacts.

Lemma eqb_space_false (k c : char) :
  isspace k = false -> isspace c = true -> N.eqb k c = false.
Proof.
  intros Hk Hc; destruct (N.eqb k c) eqn:E; [|reflexivity].
  apply N.eqb_eq in E; congruence.
Qed.

Lemma find_space_cons (kw : str) (c : char) (s : str) :
  token kw -> isspace c = true ->
  find kw (c :: s) = option_map S (find kw s).
Proof.
  intros [Hne Hkw] Hc; destruct kw as [|k kw]; [congruence|].
  inversion Hkw; subst.
  change (find (k :: kw) (c :: s))
    with (if N.eqb k c && startswith s kw then Some 0
          else option_map S (find (k :: kw) s)).
  rewrite eqb_space_false by assumption; reflexivity.
Qed.

Lemma contains_space_cons (kw : str) (c : char) (s : str) :
  token kw -> isspace c = true -> contains kw (c :: s) = contains kw s.
Proof.
  intros Hkw Hc; unfold contains; rewrite find_space_cons by assumption.
  destruct (find kw s); reflexivity.
Qed.

Lemma contains_spaces_app (kw pre s : str) :
  token kw -> forallb isspace pre = true ->
  contains kw (pre ++ s) = contains kw s.
Proof.
  intros Hkw; induction pre as [|c pre IH]; simpl; [reflexivity|].
  rewrite andb_true_iff; intros [Hc H].
  rewrite contains_space_cons by assumption; apply IH, H.
Qed.

Lemma startswith_snoc_space (kw : str) (c : char) :
  Forall (fun c => isspace c = false) kw -> isspace c = true ->
  forall s, startswith (s ++ [c]) kw = startswith s kw.
Proof.
  intros Hkw Hc; induction Hkw as [|k kw Hk _ IH]; intros s; [reflexivity|].
  destruct s as [|x s]; simpl.
  - rewrite eqb_space_false by assumption; reflexivity.
  - rewrite IH; reflexivity.
Qed.

Lemma find_snoc_space (kw : str) (c : char) :
  token kw -> isspace c = true ->
  forall s, find kw (s ++ [c]) = find kw s.
Proof.
  intros Hkw Hc; pose proof Hkw as [Hne Hsolid].
  induction s as [|x s IH].
  - change ([] ++ [c]) with [c]; rewrite find_space_cons by assumption.
    destruct kw; [congruence | reflexivity].
  - change (find kw ((x :: s) ++ [c]))
      with (if startswith ((x :: s) ++ [c]) kw then Some 0
            else option_map S (find kw (s ++ [c]))).
    rewrite startswith_snoc_space, IH by assumption.
    destruct kw; reflexivity.
Qed.

Lemma contains_app_spaces (kw s post : str) :
  token kw -> forallb isspace post = true ->
  contains kw (s ++ post) = contains kw s.
Proof.
  intros Hkw; induction post as [|c post IH] using rev_ind.
  - rewrite app_nil_r; reflexivity.
  - rewrite forallb_app, andb_true_iff; simpl; rewrite andb_true_r.
    intros [H Hc]; rewrite app_assoc.
    unfold contains at 1; rewrite find_snoc_space by assumption.
    apply IH, H.
Qed.

(** A whitespace-free keyword occurs in the trimmed text exactly when it
    occurs in the text. *)
Lemma contains_lower_strip (kw s : str) :
  token kw -> contains kw (lower (strip s)) = contains kw (lower s).
Proof.
  intros Hkw; destruct (strip_split s) as (pre & post & E & H1 & H2).
  rewrite E at 2; rewrite !lower_app.
  rewrite (lower_spaces _ H1), (lower_spaces _ H2).
  rewrite contains_spaces_app, contains_app_spaces; auto.
Qed.

Ltac keyword := split; [discriminate | repeat constructor].

Lemma classify_strip (user_input : str) :
  classify (strip user_input) = classify user_input.
Proof.
  unfold classify, places_keywords; simpl existsb.
  rewrite !contains_lower_strip by keyword; reflexivity.
Qed.

Lemma extract_place_strip (user_input : str) :
  extract_place (strip user_input) = extract_place user_input.
Proof. unfold extract_place; rewrite strip_idem; reflexivity. Qed.

End PadFacts.

(** ** Substrings *)

Module SubFacts.

Import StrFacts TokenFacts StripFacts.

Lemma substring_refl (s : str) : substring s s.
Proof. exists [], []; rewrite app_nil_r; reflexivity. Qed.

Lemma substring_trans (a b c : str) :
  substring a b -> substring b c -> substring a c.
Proof.
  intros (p1 & q1 & ->) (p2 & q2 & ->).
  exists (p2 ++ p1), (q1 ++ q2); rewrite !app_assoc; reflexivity.
Qed.

Lemma substring_cons (w s : str) (c : char) :
  substring w s -> substring w (c :: s).
Proof. intros (p & q & ->); exists (c :: p), q; reflexivity. Qed.

Lemma substring_firstn (n : nat) (s : str) : substring (firstn n s) s.
Proof. exists [], (skipn n s); simpl; symmetry; apply firstn_skipn. Qed.

Lemma substring_skipn (n : nat) (s : str) : substring (skipn n s) s.
Proof.
  exists (firstn n s), []; rewrite app_nil_r; symmetry; apply firstn_skipn.
Qed.

Lemma substring_strip (s : str) : substring (strip s) s.
Proof. destruct (strip_split s) as (pre & post & E & _); exists pre, post; exact E. Qed.

Lemma substring_In (w s : str) (x : char) :
  substring w s -> In x w -> In x s.
Proof.
  intros (p & q & ->) H; apply in_or_app; right; apply in_or_app; left; exact H.
Qed.

Lemma substring_lower (w s : str) :
  substring w s -> substring (lower w) (lower s).
Proof.
  intros (p & q & ->); exists (lower p), (lower q).
  unfold lower; rewrite !flat_map_app; reflexivity.
Qed.

Lemma split_cons (c : char) (cs : str) :
  split (c :: cs)
  = if isspace c then split cs
    else match cs with
         | [] => [[c]]
         | d :: _ =>
             if isspace d then [c] :: split cs
             else match split cs with
                  | w :: ws => (c :: w) :: ws
                  | [] => [[c]]
                  end
         end.
Proof. reflexivity. Qed.

(** Every word of [split s] is a piece of [s], and the first word of a
    text that begins with a non-whitespace character is a prefix of it. *)
Lemma split_pieces (s : str) :
  (forall w, In w (split s) -> substring w s)
  /\ (solid_head s -> forall w ws, split s = w :: ws ->
      exists rest, s = w ++ rest).
Proof.
  induction s as [|c cs [IH1 IH2]]; [split; [intros w [] | discriminate]|].
  rewrite split_cons; destruct (isspace c) eqn:Hc.
  - split; [|simpl; congruence].
    intros w H; apply substring_cons, IH1, H.
  - destruct cs as [|d cs'].
    + split.
      * intros w [<-|[]]; apply substring_refl.
      * intros _ w ws E; inversion E; exists []; reflexivity.
    + destruct (isspace d) eqn:Hd.
      * split.
        -- intros w [<-|H]; [exists [], (d :: cs'); reflexivity|].
           apply substring_cons, IH1, H.
        -- intros _ w ws E; inversion E; exists (d :: cs'); reflexivity.
      * destruct (split (d :: cs')) as [|w0 ws0] eqn:S0.
        -- split.
           ++ intros w [<-|[]]; exists [], (d :: cs'); reflexivity.
           ++ intros _ w ws E; inversion E; exists (d :: cs'); reflexivity.
        -- destruct (IH2 Hd w0 ws0 eq_refl) as [rest Hrest].
           split.
           ++ intros w [<-|H].
              ** exists [], rest; simpl; rewrite Hrest; reflexivity.
              ** apply substring_cons, IH1; right; exact H.
           ++ intros _ w ws E; inversion E; subst w ws.
              exists rest; simpl; rewrite Hrest; reflexivity.
Qed.

Lemma split_substring (s w : str) : In w (split s) -> substring w s.
Proof. apply split_pieces. Qed.

Lemma anchor_substring (text : str) : substring (anchor text) text.
Proof.
  unfold anchor; destruct (rfind _ _); [|apply substring_refl].
  eapply substring_trans; [apply substring_strip | apply substring_skipn].
Qed.

Lemma truncate_substring (seps : list str) (candidate : str) :
  substring (truncate seps candidate) candidate.
Proof.
  induction seps as [|sep seps IH]; simpl; [apply substring_refl|].
  destruct (find sep (lower candidate)); [|exact IH].
  eapply substring_trans; [apply substring_strip | apply substring_firstn].
Qed.

(** The candidate handed to the stop-word stage is a piece of the input. *)
Lemma truncated_substring (user_input : str) :
  substring (truncate separators (anchor (strip user_input))) user_input.
Proof.
  eapply substring_trans; [apply truncate_substring|].
  eapply substring_trans; [apply anchor_substring | apply substring_strip].
Qed.

Lemma In_lastn {A} (n : nat) (l : list A) (x : A) :
  In x (lastn n l) -> In x l.
Proof.
  unfold lastn; intros H; rewrite <- (firstn_skipn (length l - n) l).
  apply in_or_app; right; exact H.
Qed.

Lemma In_kept_words (c w : str) : In w (kept_words c) -> In w (split c).
Proof.
  unfold kept_words; destruct (filter _ (split c)) eqn:E.
  - apply In_lastn.
  - rewrite <- E; intros H; apply filter_In in H; apply H.
Qed.

(** The words of the returned candidate. *)
Lemma split_extract_place (user_input : str) :
  let kept := kept_words (truncate separators (anchor (strip user_input))) in
  split (extract_place user_input)
  = if 3 <? length kept then lastn 2 kept else kept.
Proof.
  cbv zeta; unfold extract_place.
  rewrite ExtractFacts.strip_stop_words_kept.
  apply ExtractFacts.split_cap_join, ExtractFacts.kept_words_tokens.
Qed.

Lemma In_split_extract_place (user_input w : str) :
  In w (split (extract_place user_input)) ->
  In w (kept_words (truncate separators (anchor (strip user_input)))).
Proof.
  rewrite split_extract_place; cbv zeta.
  destruct (3 <? _); [apply In_lastn | auto].
Qed.

End SubFacts.

(** ** What the extractor returns *)

Module CandidateShape.

Import StrFacts TokenFacts ExtractFacts CharFacts StripFacts SubFacts.

Lemma join_solid_head (ws : list str) :
  Forall token ws -> solid_head (join (lit " ") ws).
Proof.
  intros H; destruct H as [|w ws [Hne Hw] Hws]; [exact I|].
  destruct w as [|c w]; [congruence|].
  inversion Hw; subst; destruct ws; simpl; assumption.
Qed.

Lemma token_last (w : str) :
  token w -> exists x c, w = x ++ [c] /\ isspace c = false.
Proof.
  intros [Hne Hw]; destruct (exists_last Hne) as (x & c & ->).
  exists x, c; split; [reflexivity|].
  apply Forall_app in Hw; destruct Hw as [_ Hc]; inversion Hc; assumption.
Qed.

Lemma join_last (ws : list str) :
  Forall token ws -> ws <> [] ->
  exists x c, join (lit " ") ws = x ++ [c] /\ isspace c = false.
Proof.
  induction 1 as [|w ws Hw Hws IH]; intros Hne; [congruence|].
  destruct ws as [|w2 ws'].
  - apply token_last, Hw.
  - destruct (IH ltac:(discriminate)) as (x & c & E & Hc).
    exists (w ++ lit " " ++ x), c; split; [|exact Hc].
    change (join (lit " ") (w :: w2 :: ws'))
      with (w ++ lit " " ++ join (lit " ") (w2 :: ws')).
    rewrite E, !app_assoc; reflexivity.
Qed.

Lemma strip_join (ws : list str) :
  Forall token ws -> strip (join (lit " ") ws) = join (lit " ") ws.
Proof.
  intros H; unfold strip; rewrite (lstrip_solid _ (join_solid_head _ H)).
  destruct ws as [|w ws']; [reflexivity|].
  destruct (join_last _ H ltac:(discriminate)) as (x & c & -> & Hc).
  unfold rstrip; rewrite rev_app_distr; simpl; rewrite Hc; simpl.
  rewrite rev_involutive; reflexivity.
Qed.

(** The returned candidate is its own words joined by single spaces. *)
Lemma extract_place_join (user_input : str) :
  extract_place user_input
  = join (lit " ") (split (extract_place user_input)).
Proof.
  rewrite split_extract_place; cbv zeta; unfold extract_place.
  rewrite strip_stop_words_kept.
  rewrite CandidateFacts.cap_join by apply kept_words_tokens.
  destruct (3 <? _); reflexivity.
Qed.

(** X1. The candidate that [_extract_place] returns is normalised: it is
    its own whitespace-delimited words joined by single spaces, and it has
    no leading or trailing whitespace. *)
Theorem extract_place_normalised (user_input : str) :
  join (lit " ") (split (extract_place user_input)) = extract_place user_input
  /\ strip (extract_place user_input) = extract_place user_input.
Proof.
  split; [symmetry; apply extract_place_join|].
  rewrite extract_place_join; apply strip_join, split_tokens.
Qed.

(** X2. Every word of the returned candidate occurs verbatim, in its
    original case, as a piece of the user's text. *)
Theorem extract_place_words_verbatim (user_input : str) :
  Forall (fun w => substring w user_input)
    (split (extract_place user_input)).
Proof.
  apply Forall_forall; intros w H.
  apply In_split_extract_place, In_kept_words, split_substring in H.
  eapply substring_trans; [exact H | apply truncated_substring].
Qed.

Lemma filter_nil_all {A} (f : A -> bool) (l : list A) :
  filter f l = [] -> Forall (fun x => f x = false) l.
Proof.
  induction l as [|x l IH]; simpl; [constructor|].
  destruct (f x) eqn:E; [discriminate|]; intros H; constructor; auto.
Qed.

(** X3. If a word of the truncated candidate is not a stop word, no word
    of the returned candidate is a stop word; if all of them are stop words,
    the returned candidate is the last two of them, stop words both. *)
Theorem extract_place_stop_words (user_input : str) :
  let words := split (truncate separators (anchor (strip user_input))) in
  let filtered := filter (fun w => negb (is_stop_word w)) words in
  (filtered <> [] ->
   Forall (fun w => is_stop_word w = false)
     (split (extract_place user_input)))
  /\ (filtered = [] ->
      extract_place user_input = join (lit " ") (lastn 2 words)
      /\ Forall (fun w => is_stop_word w = true)
           (split (extract_place user_input))).
Proof.
  cbv zeta; rewrite split_extract_place; cbv zeta.
  unfold extract_place; rewrite strip_stop_words_kept; unfold kept_words.
  set (words := split (truncate separators (anchor (strip user_input)))).
  destruct (filter _ words) as [|w ws] eqn:E; split; try congruence.
  - intros _.
    assert (L : (3 <? length (lastn 2 words)) = false)
      by (apply Nat.ltb_ge; rewrite length_lastn; lia).
    rewrite L, CandidateFacts.cap_join
      by (apply Forall_lastn, split_tokens).
    rewrite L; split; [reflexivity|].
    apply Forall_lastn; apply filter_nil_all in E.
    eapply Forall_impl; [|exact E]; simpl; intros a Ha.
    destruct (is_stop_word a); [reflexivity | discriminate].
  - intros _.
    assert (F : Forall (fun w => is_stop_word w = false) (w :: ws)).
    { rewrite <- E; apply Forall_forall; intros a Ha.
      apply filter_In in Ha; destruct Ha as [_ Ha].
      destruct (is_stop_word a); [discriminate | reflexivity]. }
    destruct (3 <? _); [apply Forall_lastn|]; exact F.
Qed.

End CandidateShape.

(** ** Commas, anchors and plain place names *)

Module CandidateContent.

Import StrFacts TokenFacts ExtractFacts CharFacts StripFacts SubFacts.
Import CandidateShape.

Lemma find_char (k : char) : forall s,
  match find [k] s with
  | Some i => ~ In k (firstn i s)
  | None => ~ In k s
  end.
Proof.
  induction s as [|a s IH]; [simpl; auto|].
  change (find [k] (a :: s))
    with (if N.eqb k a && true then Some 0
          else option_map S (find [k] s)).
  rewrite andb_true_r; destruct (N.eqb k a) eqn:E; [simpl; auto|].
  assert (Hka : a <> k) by (intros ->; rewrite N.eqb_refl in E; discriminate).
  destruct (find [k] s) as [i|]; simpl; intros [H|H]; auto.
Qed.

Lemma simple_lower_comma : simple_lower (ch ",") = ch ",".
Proof. reflexivity. Qed.

(** In a text without U+0130, cutting at the first comma of the lowered
    text cuts at the first comma of the text. *)
Lemma truncate_comma_first (rest : list str) (candidate : str) :
  ~ In dotted_I candidate ->
  ~ In (ch ",") (truncate ([ch ","] :: rest) candidate).
Proof.
  intros A; cbn [truncate].
  pose proof (find_char (ch ",") (lower candidate)) as F.
  rewrite (lower_aligned _ A) in *.
  destruct (find [ch ","] (map simple_lower candidate)) as [i|].
  - intros H; apply F; rewrite firstn_map, <- simple_lower_comma.
    apply in_map.
    eapply substring_In; [apply substring_strip | exact H].
  - intros H; apply F; rewrite <- simple_lower_comma; apply in_map.
    eapply substring_In; [apply truncate_substring | exact H].
Qed.

Lemma truncate_no_comma (candidate : str) :
  ~ In dotted_I candidate ->
  ~ In (ch ",") (truncate separators candidate).
Proof.
  exact (truncate_comma_first
           (map lit ["?"; "."; " and "; " what "]%string) candidate).
Qed.

Lemma In_join (sep : str) (ws : list str) (x : char) :
  In x (join sep ws) -> In x sep \/ exists w, In w ws /\ In x w.
Proof.
  induction ws as [|w ws IH]; [intros []|].
  destruct ws as [|w2 ws'].
  - intros H; right; exists w; split; [left; reflexivity | exact H].
  - change (join sep (w :: w2 :: ws')) with (w ++ sep ++ join sep (w2 :: ws')).
    intros H; apply in_app_or in H; destruct H as [H|H].
    + right; exists w; split; [left; reflexivity | exact H].
    + apply in_app_or in H; destruct H as [H|H]; [left; exact H|].
      destruct (IH H) as [H'|(w' & Hw' & Hx)]; [left; exact H'|].
      right; exists w'; split; [right; exact Hw' | exact Hx].
Qed.

Lemma anchored_aligned (user_input : str) :
  ~ In dotted_I user_input -> ~ In dotted_I (anchor (strip user_input)).
Proof.
  intros A H; apply A.
  eapply substring_In; [|exact H].
  eapply substring_trans; [apply anchor_substring | apply substring_strip].
Qed.

Lemma extract_place_comma_free (user_input : str) :
  ~ In dotted_I user_input -> ~ In (ch ",") (extract_place user_input).
Proof.
  intros A; rewrite extract_place_join; intros H.
  apply In_join in H; destruct H as [[H|[]]|(w & Hw & Hx)]; [discriminate|].
  apply In_split_extract_place, In_kept_words, split_substring in Hw.
  apply (truncate_no_comma _ (anchored_aligned _ A)).
  eapply substring_In; [exact Hw | exact Hx].
Qed.

(** X4. For a text without U+0130 (the one character whose lower-case
    form is longer than itself) the candidate that [_extract_place] returns
    contains no comma, and neither does the candidate left by the
    truncation loop: the comma is the first marker tried, so the text is
    cut before its first comma. *)
Theorem extract_place_no_comma (user_input : str) :
  ~ In dotted_I user_input ->
  ~ In (ch ",") (extract_place user_input)
  /\ ~ In (ch ",") (truncate separators (anchor (strip user_input))).
Proof.
  intros A; split; [apply extract_place_comma_free, A|].
  apply truncate_no_comma, anchored_aligned, A.
Qed.

Lemma contains_substring (kw a b : str) :
  substring a b -> contains kw a = true -> contains kw b = true.
Proof.
  intros Hab H; apply contains_iff in H; apply contains_iff.
  exact (substring_trans _ _ _ H Hab).
Qed.

(** X5. After the anchor stage no " to " is left: the lower-cased
    candidate it produces does not contain " to ". *)
Theorem anchor_leaves_no_to (text : str) :
  contains (lit " to ") (lower (anchor text)) = false.
Proof.
  unfold anchor; destruct (rfind (lit " to ") (lower text)) as [i|] eqn:R.
  - destruct (contains _ _) eqn:C; [exfalso | reflexivity].
    apply rfind_Some in R; destruct R as [_ Hmax].
    apply (contains_substring _ _ _
             (substring_lower _ _ (substring_strip _))) in C.
    apply contains_iff in C; destruct C as (a & b & C).
    destruct (le_lt_dec (i + 4) (length text)) as [L|L].
    + apply (Hmax (length (lower (firstn (i + 4) text) ++ a))).
      * pose proof (length_lower (firstn (i + 4) text)) as G.
        rewrite length_firstn in G; rewrite length_app; lia.
      * exists (lower (firstn (i + 4) text) ++ a), b; split; [|reflexivity].
        rewrite <- app_assoc, <- C, <- lower_app, firstn_skipn; reflexivity.
    + rewrite skipn_all2 in C by lia.
      destruct a; discriminate C.
  - apply rfind_None_find in R; unfold contains; rewrite R; reflexivity.
Qed.

(** X6. A plain place name passes through: when the trimmed text has no
    " to ", none of the five markers, no stop word and one to three words,
    the candidate is those words joined by single spaces. *)
Theorem extract_place_plain_name (user_input : str) :
  let text := strip user_input in
  contains (lit " to ") (lower text) = false ->
  (forall m, In m separators -> contains m (lower text) = false) ->
  forallb (fun w => negb (is_stop_word w)) (split text) = true ->
  1 <= length (split text) <= 3 ->
  extract_place user_input = join (lit " ") (split text).
Proof.
  intros text Hto Hsep Hstop Hlen; unfold extract_place; fold text.
  assert (A : anchor text = text).
  { unfold anchor.
    rewrite (proj2 (rfind_None_find _ _) (AnchorFacts.find_not_contains _ _ Hto)).
    reflexivity. }
  rewrite A; rewrite <- (app_nil_r separators).
  rewrite AnchorFacts.truncate_skip by exact Hsep; simpl truncate.
  unfold strip_stop_words; rewrite forallb_filter_id by exact Hstop.
  destruct (split text) as [|w ws] eqn:S; [simpl in Hlen; lia|].
  rewrite CandidateFacts.cap_join by (rewrite <- S; apply split_tokens).
  destruct (Nat.ltb_spec 3 (length (w :: ws))); [lia | reflexivity].
Qed.

End CandidateContent.

(** ** Texts without U+0130 *)

Module AlignedFacts.

Import StrFacts TokenFacts CharFacts StripFacts SubFacts AnchorFacts.

Lemma aligned_piece (w s : str) :
  substring w s -> ~ In dotted_I s -> ~ In dotted_I w.
Proof. intros Hw A H; apply A; exact (substring_In _ _ _ Hw H). Qed.

Lemma length_lower_aligned (s : str) :
  ~ In dotted_I s -> length (lower s) = length s.
Proof. intros A; rewrite (lower_aligned _ A); apply length_map. Qed.

(** In a text without U+0130 the occurrences in the lowered text are, index
    by index, the pieces of the text that lower-case to the searched
    string. *)
Lemma occurs_at_folded (sub text : str) (i : nat) :
  ~ In dotted_I text ->
  (occurs_at sub (lower text) i <-> folded_at sub text i).
Proof.
  intros A; split.
  - intros (p & q & E & Hp).
    rewrite (lower_aligned _ A) in E.
    assert (Hlen : i + length sub <= length text).
    { apply (f_equal (@length _)) in E.
      rewrite length_map, !length_app in E; lia. }
    exists (firstn i text), (firstn (length sub) (skipn i text)),
      (skipn (length sub) (skipn i text)); split; [|split].
    + rewrite (firstn_skipn (length sub)), firstn_skipn; reflexivity.
    + rewrite length_firstn; lia.
    + rewrite lower_aligned.
      * rewrite <- firstn_map, <- skipn_map, E.
        rewrite skipn_app, <- Hp, Nat.sub_diag, skipn_all; simpl.
        rewrite firstn_app, Nat.sub_diag, firstn_all; simpl.
        apply app_nil_r.
      * apply (aligned_piece _ text); [|exact A].
        eapply substring_trans; [apply substring_firstn | apply substring_skipn].
  - intros (pre & mid & post & E & Hp & Hm).
    exists (lower pre), (lower post); split.
    + rewrite E, !lower_app, Hm; reflexivity.
    + rewrite length_lower_aligned; [exact Hp|].
      apply (aligned_piece _ text); [|exact A].
      exists [], (mid ++ post); exact E.
Qed.

(** X18. In a text without U+0130: when the text is [pre ++ mid ++ post],
    [mid] lower-cases to " to " and no piece of the text further right
    does, the anchor step continues from [post], trimmed. *)
Theorem anchor_after_last_to_aligned (text pre mid post : str) :
  ~ In dotted_I text ->
  text = pre ++ mid ++ post ->
  lower mid = lit " to " ->
  (forall j, length pre < j -> ~ folded_at (lit " to ") text j) ->
  anchor text = strip post.
Proof.
  intros A E Hm Hlast.
  assert (R : rightmost (lit " to ") (lower text) (length pre)).
  { split.
    - apply occurs_at_folded; [exact A|].
      exists pre, mid, post; auto.
    - intros j Hj O; apply (Hlast j Hj), occurs_at_folded; assumption. }
  unfold anchor; rewrite (rfind_rightmost _ _ _ R).
  assert (L : length mid = 4).
  { rewrite <- (length_lower_aligned mid), Hm; [reflexivity|].
    apply (aligned_piece _ text); [|exact A].
    exists pre, post; exact E. }
  rewrite E, skipn_app, skipn_all2 by lia.
  replace (length pre + 4 - length pre) with (length mid) by lia.
  simpl; rewrite skipn_app, Nat.sub_diag, skipn_all; reflexivity.
Qed.

(** X19. In a candidate without U+0130: when no marker of higher
    priority occurs in the lowered candidate, the candidate is
    [pre ++ mid ++ post], [mid] lower-cases to the marker and no piece
    further left does, the truncation loop returns [pre], trimmed. *)
Theorem truncate_before_marker_aligned (candidate pre mid post : str)
  (seps1 : list str) (sep : str) (seps2 : list str) :
  ~ In dotted_I candidate ->
  separators = seps1 ++ sep :: seps2 ->
  (forall m, In m seps1 -> contains m (lower candidate) = false) ->
  candidate = pre ++ mid ++ post ->
  lower mid = sep ->
  (forall j, j < length pre -> ~ folded_at sep candidate j) ->
  truncate separators candidate = strip pre.
Proof.
  intros A Hs Hbefore E Hm Hfirst.
  assert (L : leftmost sep (lower candidate) (length pre)).
  { split.
    - apply occurs_at_folded; [exact A|].
      exists pre, mid, post; auto.
    - intros j Hj O; apply (Hfirst j Hj), occurs_at_folded; assumption. }
  rewrite Hs, truncate_skip by exact Hbefore.
  cbn [truncate]; rewrite (find_leftmost _ _ _ L).
  rewrite E, firstn_app, Nat.sub_diag, firstn_all; simpl.
  rewrite app_nil_r; reflexivity.
Qed.

End AlignedFacts.

(** ** Providers *)

Module ProviderFacts.

Import StrFacts PlacesFacts.

Lemma before_comma_split (s : str) :
  ~ In (ch ",") (before_comma s)
  /\ (s = before_comma s \/ exists rest, s = before_comma s ++ (ch ",") :: rest).
Proof.
  induction s as [|c s [IH1 IH2]]; [simpl; split; auto|].
  change (before_comma (c :: s))
    with (if N.eqb c (ch ",") then [] else c :: before_comma s).
  destruct (N.eqb_spec c (ch ",")) as [->|D].
  - split; [simpl; auto|].
    right; exists s; reflexivity.
  - split.
    + intros [H|H]; [exact (D H) | auto].
    + destruct IH2 as [H|[rest H]]; [left | right; exists rest];
        simpl; f_equal; exact H.
Qed.

Lemma fold_max_ge (l : list Z) : forall a,
  (a <= fold_left Z.max l a)%Z
  /\ (forall x, In x l -> (x <= fold_left Z.max l a)%Z)
  /\ (fold_left Z.max l a = a \/ In (fold_left Z.max l a) l).
Proof.
  induction l as [|y l IH]; intros a; simpl.
  - repeat split; [lia | intros x [] | left; reflexivity].
  - destruct (IH (Z.max a y)) as (H1 & H2 & H3); repeat split.
    + lia.
    + intros x [<-|H]; [lia | apply H2, H].
    + destruct H3 as [H|H]; [|right; right; exact H].
      rewrite H; destruct (Z.max_spec a y) as [[_ ->]|[_ ->]]; auto.
Qed.

Lemma fresh_In (l : list str) : forall seen x,
  In x (fresh seen l) <-> In x l /\ ~ In x seen.
Proof.
  induction l as [|y l IH]; intros seen x; simpl; [tauto|].
  destruct (in_names y seen) eqn:I.
  - apply in_names_iff in I; rewrite IH; split.
    + intros [H1 H2]; auto.
    + intros [[<-|H1] H2]; [contradiction | auto].
  - assert (N : ~ In y seen)
      by (intros H; apply in_names_iff in H; congruence).
    simpl; rewrite IH; split.
    + intros [<-|[H1 H2]]; [auto|].
      split; [auto | intros H; apply H2, in_or_app; auto].
    + intros [[<-|H1] H2]; [auto|].
      destruct (list_eq_dec N.eq_dec y x) as [<-|D]; [auto|].
      right; split; [exact H1|].
      intros H; apply in_app_or in H; destruct H as [H|[H|[]]]; auto.
Qed.

Lemma named_In (elements : list element) (n : str) :
  In n (named elements)
  <-> n <> [] /\ exists el, In el elements /\ tag_name el = Some n.
Proof.
  induction elements as [|el rest IH]; simpl.
  - split; [intros [] | intros (_ & el & [] & _)].
  - destruct (tag_name el) as [[|c name]|] eqn:T; simpl; rewrite ?IH; split.
    + intros (H & el' & Hin & E); eauto 6.
    + intros (H & el' & [<-|Hin] & E); [congruence | eauto].
    + intros [<-|(H & el' & Hin & E)]; [split; [discriminate | eauto]|].
      split; [exact H | eauto].
    + intros (H & el' & [<-|Hin] & E); [left; congruence | eauto].
    + intros (H & el' & Hin & E); eauto 6.
    + intros (H & el' & [<-|Hin] & E); [congruence | eauto].
Qed.

(** With a limit of at least 1 the loop returns the first [limit] distinct
    names. *)
Lemma collect_names_firstn (limit : Z) (elements : list element) :
  forall names,
    (Z.of_nat (length names) < limit)%Z ->
    collect_names limit names elements
    = names ++ firstn (Z.to_nat limit - length names)
                 (fresh names (named elements)).
Proof.
  induction elements as [|el rest IH]; intros names H; simpl.
  - rewrite firstn_nil, app_nil_r; reflexivity.
  - destruct (tag_name el) as [[|c name]|].
    + destruct (Z.leb_spec limit (Z.of_nat (length names))); [lia|].
      apply IH, H.
    + destruct (in_names (c :: name) names) eqn:I; simpl; rewrite ?I.
      * destruct (Z.leb_spec limit (Z.of_nat (length names))); [lia|].
        apply IH, H.
      * destruct (limit <=? _)%Z eqn:L;
          [apply Z.leb_le in L | apply Z.leb_gt in L];
          rewrite length_app in L; simpl in L.
        -- replace (Z.to_nat limit - length names) with 1 by lia.
           reflexivity.
        -- etransitivity; [apply IH; rewrite length_app; simpl; lia|].
           rewrite length_app; simpl.
           replace (Z.to_nat limit - length names)
             with (S (Z.to_nat limit - (length names + 1))) by lia.
           rewrite <- app_assoc; reflexivity.
    + destruct (Z.leb_spec limit (Z.of_nat (length names))); [lia|].
      apply IH, H.
Qed.

End ProviderFacts.

(** ** Lookups, orchestration and the HTTP handler *)

Section LookupFacts.

Import StrFacts PlacesFacts ProviderFacts.

Variable float : Type.
Variable net : upstream float.

(** X7. For an answer whose hourly precipitation list holds numbers
    only, [get_weather] reports the largest value of that list as the rain
    chance, and no rain chance exactly when the list is empty; the
    temperature is passed on as it came. *)
Theorem get_weather_peak (lat lon : float) (data : forecast float) :
  open_meteo net lat lon = Some data ->
  exists rain_chance,
    run (get_weather net lat lon)
    = (Return (current_temperature data, rain_chance), [OpenMeteo lat lon])
    /\ (rain_chance = None <-> precipitation_probability data = [])
    /\ (forall m, rain_chance = Some m ->
          In m (precipitation_probability data)
          /\ forall x, In x (precipitation_probability data) -> (x <= m)%Z).
Proof.
  intros H; exists (max_or_none (precipitation_probability data)).
  split; [unfold run, get_weather, bind, request, ret; rewrite H; reflexivity|].
  destruct (precipitation_probability data) as [|a l]; simpl.
  - split; [tauto | discriminate].
  - split; [split; discriminate|].
    intros m E; inversion E; subst.
    destruct (fold_max_ge l a) as (H1 & H2 & H3); split.
    + destruct H3 as [->|H3]; auto.
    + intros x [<-|Hx]; auto.
Qed.

(** X8. When the geocoder answers with at least one hit, [geocode] uses
    the first hit only; the short name it returns has no comma and is the
    display name up to its first comma (the queried text stands in for a
    missing display name). *)
Theorem geocode_short_name (place : str) (first : geo_hit float)
  (others : list (geo_hit float)) :
  nominatim net place = Some (first :: others) ->
  let display_name := match hit_display_name first with
                      | Some d => d
                      | None => place
                      end in
  exists short,
    run (geocode net place)
    = (Return (hit_lat first, hit_lon first, short), [Nominatim float place])
    /\ ~ In (ch ",") short
    /\ (display_name = short
        \/ exists rest, display_name = short ++ (ch ",") :: rest).
Proof.
  intros H display_name; exists (before_comma display_name); split.
  - unfold run, geocode, bind, request, ret; rewrite H; reflexivity.
  - apply before_comma_split.
Qed.

(** X9. Whatever the limit, the names [get_places] returns are pairwise
    distinct, non-empty, and each is the name tag of an element of the
    response. *)
Theorem get_places_names (lat lon : float) (limit : Z)
  (elements : list element) :
  overpass net lat lon = Some elements ->
  exists names,
    run (get_places net lat lon limit)
    = (Return names, [Overpass lat lon])
    /\ NoDup names
    /\ forall n, In n names ->
         n <> [] /\ exists el, In el elements /\ tag_name el = Some n.
Proof.
  intros H; exists (collect_names limit [] elements); split; [|split].
  - unfold run, get_places, bind, request, ret; rewrite H; reflexivity.
  - apply collect_names_NoDup; constructor.
  - intros n Hn; apply named_In.
    destruct (collect_names_prefix limit elements []) as [k Hk].
    rewrite Hk in Hn; simpl in Hn.
    pose proof (firstn_skipn k (fresh [] (named elements))) as E.
    assert (Hf : In n (fresh [] (named elements)))
      by (rewrite <- E; apply in_or_app; left; exact Hn).
    apply fresh_In in Hf; apply Hf.
Qed.

(** X10. With a limit of at least 1, [get_places] returns the first
    [limit] distinct non-empty names of the response, in the order of
    their first occurrence; when fewer distinct names exist, it returns
    every one of them. *)
Theorem get_places_first_names (lat lon : float) (limit : Z)
  (elements : list element) :
  (1 <= limit)%Z ->
  overpass net lat lon = Some elements ->
  let distinct := fresh [] (named elements) in
  run (get_places net lat lon limit)
  = (Return (firstn (Z.to_nat limit) distinct), [Overpass lat lon])
  /\ NoDup distinct
  /\ (forall n, In n distinct <-> In n (named elements))
  /\ ((Z.of_nat (length distinct) <= limit)%Z ->
      forall el n, In el elements -> tag_name el = Some n -> n <> [] ->
        In n (firstn (Z.to_nat limit) distinct)).
Proof.
  intros Hl H distinct.
  assert (E : collect_names limit [] elements
              = firstn (Z.to_nat limit) distinct).
  { rewrite collect_names_firstn by (simpl; lia).
    simpl; rewrite Nat.sub_0_r; reflexivity. }
  assert (I : forall n, In n distinct <-> In n (named elements)).
  { intros n; unfold distinct; rewrite fresh_In; simpl; tauto. }
  split; [|split; [|split]].
  - unfold run, get_places, bind, request, ret; rewrite H, E; reflexivity.
  - pose proof (collect_names_NoDup (Z.of_nat (S (length distinct)))
                  elements [] (NoDup_nil _)) as N.
    rewrite collect_names_firstn in N by (simpl; lia).
    simpl in N; rewrite Nat.sub_0_r, firstn_all2 in N by (fold distinct; lia).
    exact N.
  - exact I.
  - intros Hfew el n Hel Ht Hn.
    rewrite firstn_all2 by lia.
    apply I, named_In; eauto.
Qed.

End LookupFacts.

Section RequestFacts.

Import StrFacts StripFacts PadFacts.

Variable float : Type.
Variable fmt_float : float -> str.
Variable net : upstream float.

Lemma handle_request_trimmed (user_input : str) :
  handle_request fmt_float net (strip user_input)
  = handle_request fmt_float net user_input.
Proof.
  unfold handle_request.
  rewrite classify_strip, extract_place_strip; reflexivity.
Qed.

(** X11. Trimming the text first changes nothing: [handle_request] on the
    stripped text is [handle_request] on the text, because neither the
    intent nor the extracted place depends on surrounding whitespace. *)
Theorem handle_request_strip (user_input : str) :
  classify (strip user_input) = classify user_input
  /\ extract_place (strip user_input) = extract_place user_input
  /\ handle_request fmt_float net (strip user_input)
     = handle_request fmt_float net user_input.
Proof.
  split; [apply classify_strip | split; [apply extract_place_strip|]].
  apply handle_request_trimmed.
Qed.

Lemma strip_nil_iff (s : str) : strip s = [] <-> forallb isspace s = true.
Proof.
  split; [|apply TokenFacts.strip_spaces].
  intros E; destruct (strip_split s) as (pre & post & Hs & H1 & H2).
  rewrite E in Hs; rewrite Hs, forallb_app, H1; exact H2.
Qed.

(** X12. [api_query] answers a missing, empty or all-whitespace message
    with the fixed text and status 400, and sends no request. *)
Theorem api_query_blank (message_field : option str) :
  forallb isspace match message_field with
                  | Some m => m
                  | None => []
                  end = true ->
  run (api_query fmt_float net message_field)
  = (Return (lit "Please enter your question or trip plan.", 400%Z), []).
Proof.
  intros H; apply strip_nil_iff in H.
  unfold run, api_query; destruct message_field; cbv zeta; rewrite H;
    reflexivity.
Qed.

(** X13. For a message with a non-whitespace character, [api_query]
    answers what [handle_request] answers for the message as sent, with
    status 200, and an exception of [handle_request] is passed on. *)
Theorem api_query_forwards (message : str) :
  forallb isspace message = false ->
  run (api_query fmt_float net (Some message))
  = match run (handle_request fmt_float net message) with
    | (Return reply, log) => (Return (reply, 200%Z), log)
    | (Raise e, log) => (Raise e, log)
    end.
Proof.
  intros H; unfold run, api_query; cbv zeta.
  destruct (strip message) as [|c t] eqn:E.
  - apply strip_nil_iff in E; congruence.
  - rewrite <- E; unfold bind, ret.
    rewrite handle_request_trimmed.
    destruct (handle_request fmt_float net message []) as [[reply|e] log];
      reflexivity.
Qed.

End RequestFacts.

Section OrchestrationFacts.

Variable float : Type.
Variable fmt_float : float -> str.
Variable net : upstream float.

Ltac run_cases H :=
  unfold run, handle_request in H;
  destruct (extract_place _) as [|? ?] eqn:?;
  unfold bind, try_except, geocode, get_weather, get_places, request, bind,
    ret, raise in H;
  [|destruct (nominatim net _) as [[|? ?]|] eqn:?; simpl in H;
    [| destruct (classify _) as [[] []]; simpl in H;
       repeat match type of H with
              | context [open_meteo net ?a ?b] =>
                  destruct (open_meteo net a b) eqn:?; simpl in H
              | context [overpass net ?a ?b] =>
                  destruct (overpass net a b) eqn:?; simpl in H
              end
     |]];
  inversion H; subst; clear H.

(** The same, keeping the reply sentences folded. *)
Ltac reply_cases H :=
  unfold run, handle_request in H;
  destruct (extract_place _) as [|? ?] eqn:?;
  unfold bind, try_except, geocode, get_weather, get_places, request, bind,
    ret, raise in H;
  [|destruct (nominatim net _) as [[|? ?]|] eqn:?;
    cbn -[join weather_sentence places_fragment weather_only_reply] in H;
    [| destruct (classify _) as [[] []];
       cbn -[join weather_sentence places_fragment weather_only_reply] in H;
       repeat match type of H with
              | context [open_meteo net ?a ?b] =>
                  destruct (open_meteo net a b) eqn:?;
                  cbn -[join weather_sentence places_fragment
                        weather_only_reply] in H
              | context [overpass net ?a ?b] =>
                  destruct (overpass net a b) eqn:?;
                  cbn -[join weather_sentence places_fragment
                        weather_only_reply] in H
              end
     |]];
  apply pair_equal_spec in H; destruct H as [<- <-].

Ltac in_log :=
  repeat match goal with
         | H : False |- _ => destruct H
         | H : _ \/ _ |- _ => destruct H as [H|H]
         | H : In _ _ |- _ => simpl in H
         | H : @eq (call _) _ _ |- _ => inversion H; subst; clear H
         end.

(** X14. Whatever the providers answer, [handle_request] never lets
    [GeocodingError] escape, sends at most three requests and the geocoding
    request first, asks the geocoder only for the extracted place, asks
    the weather service only when weather is wanted and the places service
    only when places are wanted, both at the coordinates of the first
    geocoding hit. *)
Theorem handle_request_requests (user_input : str)
  (r : result str) (log : list (call float)) :
  run (handle_request fmt_float net user_input) = (r, log) ->
  let place := extract_place user_input in
  let located lat lon :=
    exists first others,
      nominatim net place = Some (first :: others)
      /\ lat = hit_lat first /\ lon = hit_lon first in
  r <> Raise GeocodingError
  /\ length log <= 3
  /\ match log with
     | [] => place = []
     | c :: _ => c = Nominatim float place /\ place <> []
     end
  /\ (forall q, In (Nominatim float q) log -> q = place)
  /\ (forall lat lon, In (OpenMeteo lat lon) log ->
        wants_weather (classify user_input) = true /\ located lat lon)
  /\ (forall lat lon, In (Overpass lat lon) log ->
        wants_places (classify user_input) = true /\ located lat lon).
Proof.
  intros H; cbv zeta; run_cases H; simpl;
    (split; [discriminate|]); (split; [lia|]);
    (split; [first [reflexivity | split; [reflexivity | discriminate]]|]);
    repeat split; intros; in_log; eauto.
Qed.

(** X15. A failing provider request ends the request with the transport
    exception: the [except GeocodingError] clause does not catch a failing
    geocoder call, after a failing weather call the places service is not
    asked, and a failing places call discards the weather fragment. *)
Theorem handle_request_upstream_failure (user_input : str) :
  let place := extract_place user_input in
  place <> [] ->
  (nominatim net place = None ->
   run (handle_request fmt_float net user_input)
   = (Raise RequestException, [Nominatim float place]))
  /\ (forall first others,
        nominatim net place = Some (first :: others) ->
        wants_weather (classify user_input) = true ->
        open_meteo net (hit_lat first) (hit_lon first) = None ->
        run (handle_request fmt_float net user_input)
        = (Raise RequestException,
           [Nominatim float place;
            OpenMeteo (hit_lat first) (hit_lon first)]))
  /\ (forall first others,
        nominatim net place = Some (first :: others) ->
        wants_places (classify user_input) = true ->
        (wants_weather (classify user_input) = true ->
         open_meteo net (hit_lat first) (hit_lon first) <> None) ->
        overpass net (hit_lat first) (hit_lon first) = None ->
        run (handle_request fmt_float net user_input)
        = (Raise RequestException,
           Nominatim float place
           :: (if wants_weather (classify user_input)
               then [OpenMeteo (hit_lat first) (hit_lon first)] else [])
           ++ [Overpass (hit_lat first) (hit_lon first)])).
Proof.
  cbv zeta; intros Hne; unfold run, handle_request.
  destruct (extract_place user_input) as [|c p] eqn:E; [congruence|].
  unfold bind, try_except, geocode, get_weather, get_places, request, bind,
    ret, raise.
  split; [intros ->; reflexivity|]; split.
  - intros first others -> Hw Hm; simpl; rewrite Hw, Hm.
    destruct (wants_places (classify user_input)); reflexivity.
  - intros first others -> Hp Hm Ho; simpl; rewrite Hp, Ho.
    destruct (wants_weather (classify user_input)); simpl; [|reflexivity].
    destruct (open_meteo net (hit_lat first) (hit_lon first));
      [reflexivity | exfalso; apply Hm; reflexivity].
Qed.

(** C9, amended. For every provider response and every limit of at
    least 1, [get_places] returns a list without two equal names, in the
    order of first occurrence in the response, and of length at most the
    limit; [handle_request] asks for the limit 5, so the list it puts into
    the reply has at most 5 entries. *)
Theorem get_places_capped :
  (forall lat lon limit elements,
     (1 <= limit)%Z ->
     overpass net lat lon = Some elements ->
     exists names,
       run (get_places net lat lon limit)
       = (Return names, [Overpass lat lon])
       /\ NoDup names
       /\ (exists k, names = firstn k (fresh [] (named elements)))
       /\ (forall n, In n (fresh [] (named elements))
                     <-> In n (named elements))
       /\ (Z.of_nat (length names) <= limit)%Z)
  /\ (forall user_input r log lat lon elements,
        run (handle_request fmt_float net user_input) = (r, log) ->
        In (Overpass lat lon) log ->
        overpass net lat lon = Some elements ->
        exists fragments display_name,
          r = Return
                (join (lit " ")
                   (fragments
                    ++ [places_fragment (wants_weather (classify user_input))
                          display_name (collect_names 5 [] elements)]))
          /\ length (collect_names 5 [] elements) <= 5).
Proof.
  split.
  - intros lat lon limit elements Hl Ho.
    exists (collect_names limit [] elements); split; [|split; [|split; [|split]]].
    + unfold run, get_places, bind, request, ret; rewrite Ho; reflexivity.
    + apply PlacesFacts.collect_names_NoDup; constructor.
    + destruct (PlacesFacts.collect_names_prefix limit elements []) as [k Hk].
      exists k; exact Hk.
    + intros n; rewrite ProviderFacts.fresh_In; simpl; tauto.
    + apply PlacesFacts.collect_names_within, Hl.
  - intros user_input r log lat lon elements H Hin Ho.
    pose proof (PlacesFacts.collect_names_five elements) as Hfive.
    reply_cases H; in_log;
      try match goal with
          | E : overpass net ?a ?b = _, Ho : overpass net ?a ?b = _ |- _ =>
              rewrite E in Ho; inversion Ho; subst; clear Ho
          end.
    + match goal with
      | |- exists _ _, Return (join _ [?w; places_fragment _ ?d _]) = _ /\ _ =>
          exists [w], d
      end; split; [reflexivity | exact Hfive].
    + match goal with
      | |- exists _ _, Return (join _ [places_fragment _ ?d _]) = _ /\ _ =>
          exists [], d
      end; split; [reflexivity | exact Hfive].
Qed.

Lemma classify_flags (user_input : str) :
  wants_weather (classify user_input) || wants_places (classify user_input)
  = true.
Proof.
  unfold classify.
  destruct (contains (lit "temperature") _), (contains (lit "weather") _),
    (existsb _ places_keywords); reflexivity.
Qed.

Lemma nominatim_query (user_input : str) (r : result str)
  (log : list (call float)) (q : str) :
  run (handle_request fmt_float net user_input) = (r, log) ->
  In (Nominatim float q) log ->
  q = extract_place user_input /\ q <> [].
Proof.
  intros H Hq; run_cases H; in_log; split; congruence.
Qed.

(** X16. Every geocoding request of [handle_request] carries the
    extracted place, and that query is never empty and has one to three
    words separated by single spaces; when the user's text has no U+0130,
    the query has no comma either. *)
Theorem geocoding_query_shape (user_input : str) (r : result str)
  (log : list (call float)) (q : str) :
  run (handle_request fmt_float net user_input) = (r, log) ->
  In (Nominatim float q) log ->
  q = extract_place user_input
  /\ q <> []
  /\ q = join (lit " ") (split q)
  /\ 1 <= length (split q) <= 3
  /\ (~ In dotted_I user_input -> ~ In (ch ",") q).
Proof.
  intros H Hq; destruct (nominatim_query _ _ _ _ H Hq) as [-> Hne].
  split; [reflexivity|]; split; [exact Hne|].
  pose proof (CandidateShape.extract_place_join user_input) as J.
  split; [exact J|]; split; [|apply CandidateContent.extract_place_comma_free].
  split.
  - destruct (split (extract_place user_input)); [|simpl; lia].
    exfalso; apply Hne; rewrite J; reflexivity.
  - rewrite SubFacts.split_extract_place; cbv zeta.
    destruct (Nat.ltb_spec 3 (length (kept_words
      (truncate separators (anchor (strip user_input))))));
      [rewrite TokenFacts.length_lastn; lia | assumption].
Qed.

(** X17. A reply of [handle_request] is never the empty string: since the
    intent is never without both flags, the combined branch always has a
    places fragment to join. *)
Theorem handle_request_reply_nonempty (user_input : str) (reply : str)
  (log : list (call float)) :
  run (handle_request fmt_float net user_input) = (Return reply, log) ->
  reply <> [].
Proof.
  intros H; pose proof (classify_flags user_input) as F.
  unfold run, handle_request in H.
  destruct (extract_place user_input) as [|c p]; [inversion H; discriminate|].
  unfold bind, try_except, geocode, get_weather, get_places, request, bind,
    ret, raise in H.
  destruct (nominatim net (c :: p)) as [[|first others]|]; simpl in H;
    [inversion H; discriminate | | discriminate].
  destruct (classify user_input) as [[] []]; simpl in H, F;
    try discriminate F;
    repeat match type of H with
           | context [open_meteo net ?a ?b] =>
               destruct (open_meteo net a b) as [data|]; simpl in H
           | context [overpass net ?a ?b] =>
               destruct (overpass net a b) as [elements|]; simpl in H
           end;
    try discriminate H; inversion H; subst; clear H.
  - discriminate.
  - unfold weather_only_reply.
    destruct (current_temperature data);
      [destruct (max_or_none _)|]; discriminate.
  - unfold places_fragment; destruct (collect_names 5 [] elements);
      discriminate.
Qed.

End OrchestrationFacts.

(** ** More concrete requests *)

Module MoreScenarios.

Import CandidateShape CandidateContent.

Lemma extract_place_stop_words_witness :
  Forall (fun w => is_stop_word w = false)
    (split (extract_place (lit "my trip to New York")))
  /\ extract_place (lit "I'm going") = lit "I'm going"
  /\ Forall (fun w => is_stop_word w = true)
       (split (extract_place (lit "I'm going"))).
Proof.
  split.
  - apply (proj1 (extract_place_stop_words (lit "my trip to New York"))).
    vm_compute; discriminate.
  - exact (proj2 (extract_place_stop_words (lit "I'm going")) eq_refl).
Defined.

Lemma extract_place_plain_name_witness :
  extract_place (lit "  Rio de Janeiro ") = lit "Rio de Janeiro".
Proof.
  refine (extract_place_plain_name (lit "  Rio de Janeiro ") eq_refl _ eq_refl _).
  - intros m [<-|[<-|[<-|[<-|[<-|[]]]]]]; reflexivity.
  - vm_compute; split; repeat constructor.
Defined.

Lemma get_weather_peak_witness :
  exists rain_chance,
    run (get_weather Demo.net 48%Z 2%Z)
    = (Return (Some 21%Z, rain_chance), [OpenMeteo 48%Z 2%Z])
    /\ (rain_chance = None <-> [0; 35; 10]%Z = [])
    /\ (forall m, rain_chance = Some m ->
          In m [0; 35; 10]%Z /\ forall x, In x [0; 35; 10]%Z -> (x <= m)%Z).
Proof. exact (get_weather_peak Z Demo.net 48%Z 2%Z Demo.mild eq_refl). Defined.

Lemma geocode_short_name_witness :
  exists short,
    run (geocode Demo.net (lit "Paris"))
    = (Return (48%Z, 2%Z, short), [Nominatim Z (lit "Paris")])
    /\ ~ In (ch ",") short
    /\ (lit "Paris, Ile-de-France, France" = short
        \/ exists rest,
             lit "Paris, Ile-de-France, France" = short ++ (ch ",") :: rest).
Proof.
  exact (geocode_short_name Z Demo.net (lit "Paris") Demo.paris [] eq_refl).
Defined.

Lemma get_places_names_witness :
  exists names,
    run (get_places Demo.net 48%Z 2%Z 0)
    = (Return names, [Overpass 48%Z 2%Z])
    /\ NoDup names
    /\ forall n, In n names ->
         n <> [] /\ exists el, In el Demo.sights /\ tag_name el = Some n.
Proof.
  exact (get_places_names Z Demo.net 48%Z 2%Z 0 Demo.sights eq_refl).
Defined.

Lemma get_places_first_names_witness :
  run (get_places Demo.net 48%Z 2%Z 1)
  = (Return [lit "Louvre"], [Overpass 48%Z 2%Z])
  /\ run (get_places Demo.net 48%Z 2%Z 5)
     = (Return [lit "Louvre"; lit "Tuileries"], [Overpass 48%Z 2%Z]).
Proof.
  split.
  - exact (proj1 (get_places_first_names Z Demo.net 48%Z 2%Z 1 Demo.sights
                    ltac:(lia) eq_refl)).
  - exact (proj1 (get_places_first_names Z Demo.net 48%Z 2%Z 5 Demo.sights
                    ltac:(lia) eq_refl)).
Defined.

Lemma api_query_blank_witness :
  run (api_query fmt_int Demo.net (Some (lit "   ")))
  = (Return (lit "Please enter your question or trip plan.", 400%Z), [])
  /\ run (api_query fmt_int Demo.net None)
     = (Return (lit "Please enter your question or trip plan.", 400%Z), []).
Proof.
  split.
  - exact (api_query_blank Z fmt_int Demo.net (Some (lit "   ")) eq_refl).
  - exact (api_query_blank Z fmt_int Demo.net None eq_refl).
Defined.

Lemma api_query_forwards_witness :
  run (api_query fmt_int Demo.net (Some (lit "  temperature in Paris ")))
  = (Return (weather_sentence (lit "Paris") (lit "21") (lit "35"), 200%Z),
     [Nominatim Z (lit "Paris"); OpenMeteo 48%Z 2%Z]).
Proof.
  exact (api_query_forwards Z fmt_int Demo.net
           (lit "  temperature in Paris ") eq_refl).
Defined.

Lemma handle_request_requests_witness :
  Return (weather_sentence (lit "Paris") (lit "21") (lit "35"))
  <> Raise GeocodingError
  /\ length [Nominatim Z (lit "Paris"); OpenMeteo 48%Z 2%Z] <= 3.
Proof.
  destruct (handle_request_requests Z fmt_int Demo.net
              (lit "temperature in Paris")
              (Return (weather_sentence (lit "Paris") (lit "21") (lit "35")))
              [Nominatim Z (lit "Paris"); OpenMeteo 48%Z 2%Z] eq_refl)
    as (H1 & H2 & _).
  split; [exact H1 | exact H2].
Defined.

Lemma handle_request_upstream_failure_witness :
  run (handle_request fmt_int Outage.geocoder_down (lit "Paris"))
  = (Raise RequestException, [Nominatim Z (lit "Paris")])
  /\ run (handle_request fmt_int Outage.weather_down
            (lit "weather and places to visit in Paris"))
     = (Raise RequestException,
        [Nominatim Z (lit "Paris"); OpenMeteo 48%Z 2%Z])
  /\ run (handle_request fmt_int Outage.places_down
            (lit "weather and places to visit in Paris"))
     = (Raise RequestException,
        [Nominatim Z (lit "Paris"); OpenMeteo 48%Z 2%Z; Overpass 48%Z 2%Z]).
Proof.
  split; [|split].
  - refine (proj1 (handle_request_upstream_failure Z fmt_int
                     Outage.geocoder_down (lit "Paris") _) eq_refl).
    vm_compute; discriminate.
  - refine (proj1 (proj2 (handle_request_upstream_failure Z fmt_int
                            Outage.weather_down
                            (lit "weather and places to visit in Paris") _))
              Demo.paris [] eq_refl eq_refl eq_refl).
    vm_compute; discriminate.
  - refine (proj2 (proj2 (handle_request_upstream_failure Z fmt_int
                            Outage.places_down
                            (lit "weather and places to visit in Paris") _))
              Demo.paris [] eq_refl eq_refl _ eq_refl).
    + vm_compute; discriminate.
    + intros _; vm_compute; discriminate.
Defined.

Lemma no_dotted_I_example :
  ~ In dotted_I (lit "weather in Paris, France").
Proof. intros H; vm_compute in H; intuition discriminate. Defined.

Lemma extract_place_no_comma_witness :
  extract_place (lit "weather in Paris, France") = lit "Paris"
  /\ ~ In (ch ",") (extract_place (lit "weather in Paris, France"))
  /\ ~ In (ch ",")
       (truncate separators
          (anchor (strip (lit "weather in Paris, France")))).
Proof.
  split; [reflexivity|].
  exact (extract_place_no_comma (lit "weather in Paris, France")
           no_dotted_I_example).
Defined.

Lemma geocoding_query_shape_witness :
  lit "Paris" = extract_place (lit "weather in Paris, France")
  /\ lit "Paris" <> []
  /\ lit "Paris" = join (lit " ") (split (lit "Paris"))
  /\ 1 <= length (split (lit "Paris")) <= 3
  /\ ~ In (ch ",") (lit "Paris").
Proof.
  destruct (geocoding_query_shape Z fmt_int Demo.net
              (lit "weather in Paris, France")
              (Return (weather_sentence (lit "Paris") (lit "21") (lit "35")))
              [Nominatim Z (lit "Paris"); OpenMeteo 48%Z 2%Z] (lit "Paris")
              eq_refl (or_introl eq_refl))
    as (H1 & H2 & H3 & H4 & H5).
  split; [exact H1 | split; [exact H2 | split; [exact H3 | split]]];
    [exact H4 | exact (H5 no_dotted_I_example)].
Defined.

Lemma classify_intent_witness :
  wants_weather (classify (lit "What's the weather in Paris?")) = true
  /\ wants_places (classify (lit "Bengaluru")) = true.
Proof.
  split.
  - apply (proj1 (IntentFacts.classify_intent
                    (lit "What's the weather in Paris?"))).
    left; exists (lit "what's the "), (lit " in paris?"); reflexivity.
  - apply (proj1 (proj2 (IntentFacts.classify_intent (lit "Bengaluru")))).
    right; split; intros H;
      repeat (destruct H as [H|H]);
      apply StrFacts.contains_iff in H; vm_compute in H; discriminate H.
Defined.

Lemma get_places_capped_witness :
  (exists names,
     run (get_places Demo.net 48%Z 2%Z 5)
     = (Return names, [Overpass 48%Z 2%Z])
     /\ NoDup names
     /\ (Z.of_nat (length names) <= 5)%Z)
  /\ length (collect_names 5 [] Demo.sights) <= 5.
Proof.
  split.
  - destruct (proj1 (get_places_capped Z fmt_int Demo.net)
                48%Z 2%Z 5%Z Demo.sights ltac:(lia) eq_refl)
      as (names & H1 & H2 & _ & _ & H3).
    exists names; split; [exact H1 | split; [exact H2 | exact H3]].
  - destruct (proj2 (get_places_capped Z fmt_int Demo.net)
                (lit "I'm going to Tokyo")
                (Return
                   (places_fragment false (lit "Paris")
                      [lit "Louvre"; lit "Tuileries"]))
                [Nominatim Z (lit "Tokyo"); Overpass 48%Z 2%Z]
                48%Z 2%Z Demo.sights eq_refl
                (or_intror (or_introl eq_refl)) eq_refl)
      as (fragments & display_name & _ & H).
    exact H.
Defined.

Lemma anchor_after_last_to_aligned_witness :
  anchor (lit "I want to go to Paris") = strip (lit "Paris").
Proof.
  assert (A : ~ In dotted_I (lit "I want to go to Paris"))
    by (intros H; vm_compute in H; intuition discriminate).
  refine (AlignedFacts.anchor_after_last_to_aligned
            (lit "I want to go to Paris") (lit "I want to go") (lit " to ")
            (lit "Paris") A eq_refl eq_refl _).
  intros j Hj F; apply (AlignedFacts.occurs_at_folded _ _ _ A) in F.
  exact (proj2 (StrFacts.rfind_Some (lit " to ")
                  (lower (lit "I want to go to Paris")) 12 eq_refl) j Hj F).
Defined.

Lemma truncate_before_marker_aligned_witness :
  truncate separators (lit "Rome and Paris. Then what else")
  = strip (lit "Rome and Paris").
Proof.
  assert (A : ~ In dotted_I (lit "Rome and Paris. Then what else"))
    by (intros H; vm_compute in H; intuition discriminate).
  refine (AlignedFacts.truncate_before_marker_aligned
            (lit "Rome and Paris. Then what else") (lit "Rome and Paris")
            (lit ".") (lit " Then what else")
            (map lit [","; "?"]%string) (lit ".")
            (map lit [" and "; " what "]%string)
            A eq_refl _ eq_refl eq_refl _).
  - intros m [<-|[<-|[]]]; reflexivity.
  - intros j Hj F; apply (AlignedFacts.occurs_at_folded _ _ _ A) in F.
    exact (proj2 (StrFacts.find_Some (lit ".")
                    (lower (lit "Rome and Paris. Then what else")) 14
                    eq_refl) j Hj F).
Defined.

Lemma handle_request_reply_nonempty_witness :
  lit "I don't know this place exist." <> [].
Proof.
  exact (handle_request_reply_nonempty Z fmt_int Demo.net
           (lit "places to visit in Atlantis")
           (lit "I don't know this place exist.")
           [Nominatim Z (lit "Atlantis")] eq_refl).
Defined.

End MoreScenarios.
